(** * Verification of the subtitle translation pipeline of the Stremio add-on

    Shallow embedding of [lib/translation.js] (subtitle decoding, VTT
    encoding, batch translation through the Gemini API, translation cache)
    and of the SRT timestamp helpers of [lib/utils.js].

    JavaScript strings are modelled as [list ascii]; every JS string
    operation the code uses ([split], [trim], [startsWith], [match] with the
    two fixed regular expressions, [join], template literals) is written out
    below with the JS semantics. *)

From Stdlib Require Import Ascii String.
From Stdlib Require Import List ZArith Lia Bool Arith.
From Stdlib Require Import Floats.SpecFloat.
Import ListNotations.

Open Scope list_scope.

(** ** JavaScript strings *)

Definition str := list ascii.

(** A string literal of the source, as a [str]. *)
Definition lit (x : string) : str := list_ascii_of_string x.

Definition nl : ascii := "010"%char.

Definition str_eqb (a b : str) : bool :=
  if list_eq_dec ascii_dec a b then true else false.

Definition is_emptyb (a : str) : bool :=
  match a with [] => true | _ => false end.

(** Characters removed by [String.prototype.trim] among the 8-bit code
    points: TAB, LF, VT, FF, CR, SPACE and NO-BREAK SPACE (U+00A0). *)
Definition ws_chars : list ascii :=
  ["009"; "010"; "011"; "012"; "013"; " "; "160"]%char.

Definition is_ws (c : ascii) : bool := existsb (Ascii.eqb c) ws_chars.

Fixpoint drop_ws (l : str) : str :=
  match l with
  | [] => []
  | c :: t => if is_ws c then drop_ws t else l
  end.

(** [s.trim()] *)
Definition trim (l : str) : str := rev (drop_ws (rev (drop_ws l))).

(** [s.startsWith(p)] *)
Fixpoint prefixb (p l : str) : bool :=
  match p, l with
  | [], _ => true
  | a :: p', b :: l' => Ascii.eqb a b && prefixb p' l'
  | _ :: _, [] => false
  end.

(** [s.split(c)] for a one-character separator [c]. *)
Fixpoint split_on (c : ascii) (l : str) : list str :=
  match l with
  | [] => [[]]
  | x :: t =>
      if Ascii.eqb x c then [] :: split_on c t
      else match split_on c t with
           | [] => [[x]]
           | w :: ws => (x :: w) :: ws
           end
  end.

(** [s.split(sep)] for a non-empty separator string: the string is scanned
    left to right and every occurrence of [sep] closes a piece. The fuel is
    the length of the input plus one; each step consumes a character. *)
Fixpoint split_str_aux (fuel : nat) (sep l : str) : list str :=
  match fuel with
  | 0 => [l]
  | S f =>
      match l with
      | [] => [[]]
      | x :: t =>
          if prefixb sep l then [] :: split_str_aux f sep (skipn (length sep) l)
          else match split_str_aux f sep t with
               | [] => [[x]]
               | w :: ws => (x :: w) :: ws
               end
      end
  end.

Definition split_str (sep l : str) : list str :=
  split_str_aux (S (length l)) sep l.

(** [arr.join(sep)] *)
Definition join_with (sep : str) (ls : list str) : str :=
  match ls with
  | [] => []
  | x :: t => x ++ concat (map (fun y => sep ++ y) t)
  end.

Definition is_digit (c : ascii) : bool :=
  let n := nat_of_ascii c in (48 <=? n) && (n <=? 57).

Arguments is_digit : simpl never.
Arguments is_ws : simpl never.

(** [/^\d+$/.test(s)] *)
Definition all_digits (l : str) : bool :=
  negb (is_emptyb l) && forallb is_digit l.

Definition digit_char (k : nat) : ascii := ascii_of_nat (48 + k).

(** [String(n)] for a natural number [n] (decimal, no leading zeros). *)
Fixpoint nat_str_aux (fuel n : nat) (acc : str) : str :=
  match fuel with
  | 0 => acc
  | S f =>
      let acc' := digit_char (n mod 10) :: acc in
      if n <? 10 then acc' else nat_str_aux f (n / 10) acc'
  end.

Definition nat_str (n : nat) : str := nat_str_aux (S n) n [].

(** ** Fixed-shape regular expressions

    Both regular expressions of the code are sequences of [\d] and literal
    characters, combined by alternation and unanchored search. *)

Inductive cls := Dig | Chr (c : ascii).

Definition cls_ok (k : cls) (c : ascii) : bool :=
  match k with Dig => is_digit c | Chr d => Ascii.eqb c d end.

(** Match a sequence of character classes at the start of [l]; returns the
    matched text and the rest. *)
Fixpoint match_pat (p : list cls) (l : str) : option (str * str) :=
  match p with
  | [] => Some ([], l)
  | k :: p' =>
      match l with
      | [] => None
      | x :: t =>
          if cls_ok k x then
            match match_pat p' t with
            | Some (m, r) => Some (x :: m, r)
            | None => None
            end
          else None
      end
  end.

Definition full_match (p : list cls) (l : str) : bool :=
  match match_pat p l with Some (_, []) => true | _ => false end.

Definition chrs (x : string) : list cls := map Chr (lit x).

(** [\d{2}:\d{2}:\d{2}\.\d{3}] *)
Definition ts_long : list cls :=
  [Dig; Dig] ++ chrs ":" ++ [Dig; Dig] ++ chrs ":" ++ [Dig; Dig] ++ chrs "."
  ++ [Dig; Dig; Dig].

(** [\d{2}:\d{2}\.\d{3}] *)
Definition ts_short : list cls :=
  [Dig; Dig] ++ chrs ":" ++ [Dig; Dig] ++ chrs "." ++ [Dig; Dig; Dig].

Definition arrow : str := lit " --> ".

(** One attempt of [(A|B) --> (A|B)] at the current position, with the
    first group and the second group fixed to one alternative each. *)
Definition timing_alt (a1 a2 : list cls) (l : str) : option (str * str) :=
  match match_pat a1 l with
  | Some (g1, r) =>
      match match_pat (map Chr arrow) r with
      | Some (_, r') =>
          match match_pat a2 r' with
          | Some (g2, _) => Some (g1, g2)
          | None => None
          end
      | None => None
      end
  | None => None
  end.

(** The regex at one position: backtracking tries the alternatives of the
    first group, then of the second group, left alternative first. *)
Definition timing_at (l : str) : option (str * str) :=
  match timing_alt ts_long ts_long l with
  | Some g => Some g
  | None =>
  match timing_alt ts_long ts_short l with
  | Some g => Some g
  | None =>
  match timing_alt ts_short ts_long l with
  | Some g => Some g
  | None => timing_alt ts_short ts_short l
  end end end.

(** [line.match(/(...) --> (...)/)]: leftmost match; the two groups. *)
Fixpoint timing_match (l : str) : option (str * str) :=
  match timing_at l with
  | Some g => Some g
  | None => match l with [] => None | _ :: t => timing_match t end
  end.

(** ** Cues and the VTT codec *)

(** A cue object [{ start, end, text }]; [end] is a keyword of Rocq. *)
Record cue := mk_cue { start : str; end_ : str; text : str }.

(** The [format] argument: the code passes only ['vtt'] or ['srt']. *)
Inductive sub_format := Vtt | Srt.

(** [currentCue.text += (currentCue.text ? '\n' : '') + line] *)
Definition append_text (c : cue) (line : str) : cue :=
  {| start := start c; end_ := end_ c;
     text := text c ++ (if is_emptyb (text c) then [] else [nl]) ++ line |}.

Definition push_opt (cues : list cue) (cur : option cue) : list cue :=
  match cur with Some c => cues ++ [c] | None => cues end.

(** The [for] loop of [parseSubtitleContent] on the VTT path. The
    [NOTE] branch runs [while (i < lines.length && lines[i].trim()) i++]
    followed by the loop's own [i++]: it drops the [NOTE] line, the
    non-blank lines after it and the first blank line. [skipping] is true
    while that inner loop runs. *)
Fixpoint vtt_loop (lines : list str) (cues : list cue) (cur : option cue)
    (skipping : bool) : list cue * option cue :=
  match lines with
  | [] => (cues, cur)
  | raw :: rest =>
      if skipping then
        vtt_loop rest cues cur (negb (is_emptyb (trim raw)))
      else
        let line := trim raw in
        if is_emptyb line || str_eqb line (lit "WEBVTT") then
          vtt_loop rest cues cur false
        else if prefixb (lit "NOTE") line then
          vtt_loop rest cues cur true
        else
          match timing_match line with
          | Some (g1, g2) =>
              vtt_loop rest (push_opt cues cur)
                (Some {| start := g1; end_ := g2; text := [] |}) false
          | None =>
              match cur with
              | Some c =>
                  if all_digits line then vtt_loop rest cues cur false
                  else vtt_loop rest cues (Some (append_text c line)) false
              | None => vtt_loop rest cues cur false
              end
          end
  end.

Section Codec.

(** [parse] of the [subtitle] package (an external library): [None] when it
    throws. *)
Variable parseSRT : str -> option (list cue).

(** [parseSubtitleContent(content, format)]; the [catch] returns [[]]. *)
Definition parseSubtitleContent (content : str) (format : sub_format)
    : list cue :=
  match format with
  | Srt => match parseSRT content with Some cs => cs | None => [] end
  | Vtt =>
      let '(cues, cur) := vtt_loop (split_on nl content) [] None false in
      push_opt cues cur
  end.

End Codec.

(** One iteration of the [forEach] of [convertCuesToVTT]. *)
Definition cue_block (index : nat) (c : cue) : str :=
  nat_str (index + 1) ++ [nl] ++ start c ++ arrow ++ end_ c ++ [nl]
  ++ text c ++ [nl; nl].

Fixpoint vtt_body (index : nat) (cues : list cue) : str :=
  match cues with
  | [] => []
  | c :: cs => cue_block index c ++ vtt_body (S index) cs
  end.

(** [convertCuesToVTT(cues)] *)
Definition convertCuesToVTT (cues : list cue) : str :=
  lit "WEBVTT" ++ [nl; nl] ++ vtt_body 0 cues.

(** ** Cues that survive a VTT round trip

    A timestamp written by [convertCuesToVTT] is read back by the timing
    regex only when it has one of the two shapes the regex accepts; a text
    line is read back verbatim only when the parser does not take it for
    something else (blank, header, [NOTE] block, cue number or timing line)
    and [trim] leaves it unchanged. *)

Definition valid_ts (t : str) : bool :=
  full_match ts_long t || full_match ts_short t.

Definition valid_text_line (w : str) : bool :=
  negb (is_emptyb w) && str_eqb (trim w) w && negb (all_digits w)
  && negb (str_eqb w (lit "WEBVTT")) && negb (prefixb (lit "NOTE") w)
  && match timing_match w with None => true | Some _ => false end.

Definition roundtrip_cue (c : cue) : bool :=
  valid_ts (start c) && valid_ts (end_ c)
  && forallb valid_text_line (split_on nl (text c)).

Definition with_text (c : cue) (t : str) : cue :=
  {| start := start c; end_ := end_ c; text := t |}.

(** ** The Gemini API and its responses *)

(** The part of [response.data] the code reads:
    [data.candidates[0].content.parts[0].text]. [None] stands for a missing
    (undefined) field. *)
Record part := mk_part { ptext : option str }.
Record gcontent := mk_gcontent { parts : option (list part) }.
Record candidate := mk_candidate { ccontent : option gcontent }.
Record gdata := mk_gdata { candidates : option (list candidate) }.

(** Outcome of [await axios.post(...)]: the promise rejects (network or
    authentication error, non-2xx status), or resolves with [response.data]
    ([None] when [data] is falsy). *)
Inductive response :=
| HttpFailure
| Reply (data : option gdata).

(** Exceptions raised inside the [try] block of [translateSubtitle]. *)
Inductive js_error :=
| AxiosError           (* the rejected [axios.post] *)
| InvalidResponse      (* [throw new Error('Invalid response from Gemini API')] *)
| TypeError.           (* property access or [split] on [undefined] *)

Inductive outcome (A : Type) :=
| Ret (a : A)
| Throw (e : js_error).
Arguments Ret {A} a.
Arguments Throw {A} e.

(** Lines 215-222: the envelope check, then
    [response.data.candidates[0].content.parts[0].text]. An empty
    [candidates] array passes [!candidates] but fails [!candidates[0]];
    a missing or empty [parts] makes [parts[0].text] throw; a missing
    [text] makes [translatedText.split] throw. *)
Definition response_text (r : response) : outcome str :=
  match r with
  | HttpFailure => Throw AxiosError
  | Reply None => Throw InvalidResponse
  | Reply (Some d) =>
      match candidates d with
      | None | Some [] => Throw InvalidResponse
      | Some (cand :: _) =>
          match ccontent cand with
          | None => Throw InvalidResponse
          | Some ct =>
              match parts ct with
              | None | Some [] => Throw TypeError
              | Some (p :: _) =>
                  match ptext p with
                  | None => Throw TypeError
                  | Some t => Ret t
                  end
              end
          end
      end
  end.

(** The separator ['\n---\n']. *)
Definition seg_sep : str := [nl] ++ lit "---" ++ [nl].

(** [translatedText.split('\n').filter(line => line.trim())] *)
Definition simple_split (translatedText : str) : list str :=
  filter (fun line => negb (is_emptyb (trim line))) (split_on nl translatedText).

(** Lines 224-240: from the model's text to the batch's translations. *)
Definition reconcile (textsToTranslate : list str) (translatedText : str)
    : list str :=
  let translations := split_str seg_sep translatedText in
  if negb (Nat.eqb (length translations) (length textsToTranslate)) then
    let simpleSplit := simple_split translatedText in
    if length textsToTranslate <=? length simpleSplit
    then firstn (length textsToTranslate) simpleSplit
    else textsToTranslate
  else translations.

(** Lines 215-240 of the batch callback. *)
Definition handle_response (textsToTranslate : list str) (r : response)
    : outcome (list str) :=
  match response_text r with
  | Ret t => Ret (reconcile textsToTranslate t)
  | Throw e => Throw e
  end.

(** [Promise.all]: rejects as soon as one batch rejects (which rejection
    comes first does not matter, the [catch] ignores the error). *)
Fixpoint promise_all {A} (os : list (outcome A)) : outcome (list A) :=
  match os with
  | [] => Ret []
  | Throw e :: _ => Throw e
  | Ret a :: os' =>
      match promise_all os' with
      | Ret l => Ret (a :: l)
      | Throw e => Throw e
      end
  end.

(** ** Languages and prompts *)

Definition languageMap : list (str * str) :=
  map (fun kv => (lit (fst kv), lit (snd kv)))
  [("en", "English"); ("el", "Greek"); ("fr", "French"); ("es", "Spanish");
   ("de", "German"); ("it", "Italian"); ("pt", "Portuguese");
   ("ru", "Russian"); ("ja", "Japanese"); ("ko", "Korean");
   ("zh", "Chinese"); ("ar", "Arabic"); ("hi", "Hindi"); ("tr", "Turkish");
   ("nl", "Dutch"); ("sv", "Swedish"); ("pl", "Polish"); ("da", "Danish");
   ("fi", "Finnish"); ("no", "Norwegian"); ("cs", "Czech");
   ("hu", "Hungarian"); ("ro", "Romanian"); ("bg", "Bulgarian");
   ("hr", "Croatian"); ("sr", "Serbian"); ("sk", "Slovak");
   ("sl", "Slovenian"); ("uk", "Ukrainian"); ("vi", "Vietnamese");
   ("th", "Thai"); ("id", "Indonesian"); ("ms", "Malay"); ("he", "Hebrew");
   ("fa", "Persian")]%string.

(** [languageMap[langCode] || langCode]. (Keys inherited from
    [Object.prototype], such as ['constructor'], are not modelled; they
    only change the wording of the prompt.) *)
Definition getLanguageName (langCode : str) : str :=
  match find (fun kv => str_eqb (fst kv) langCode) languageMap with
  | Some (_, name) => name
  | None => langCode
  end.

Definition make_prompt (sourceLang targetLang : str) (texts : list str) : str :=
  lit "Translate the following subtitles from " ++ getLanguageName sourceLang
  ++ lit " to " ++ getLanguageName targetLang ++ lit ". " ++ [nl]
  ++ lit "Keep the same meaning and tone. Return ONLY the translations in order, one per line, with no additional text:"
  ++ [nl; nl] ++ join_with seg_sep texts.

(** ** Batching and reassembly *)

Definition batchSize : nat := 10.

(** [for (let i = 0; i < cues.length; i += batchSize)
       batches.push(cues.slice(i, i + batchSize))] *)
Definition make_batches (cues : list cue) : list (list cue) :=
  map (fun k => firstn batchSize (skipn (k * batchSize) cues))
    (seq 0 ((length cues + batchSize - 1) / batchSize)).

(** Lines 244-252: the [i]-th translation, trimmed, overwrites the text of
    the [i]-th cue; translations beyond the last cue are ignored. *)
Fixpoint apply_translations (cues : list cue) (ts : list str) : list cue :=
  match ts, cues with
  | [], _ => cues
  | _, [] => []
  | t :: ts', c :: cs => with_text c (trim t) :: apply_translations cs ts'
  end.

(** ** The translation cache and the process state *)

(** [new NodeCache({ stdTTL: 86400 })]: entries are [(key, (value, t))]
    with [t] the expiry time in milliseconds; the most recent [set] of a
    key comes first. *)
Record St := mk_st {
  cache : list (str * (str * Z));
  now : Z;        (* [Date.now()] *)
  calls : nat     (* number of Gemini requests issued so far *)
}.

Definition ttl_ms : Z := 86400 * 1000.

(** [translationCache.get(key)]: an entry with [t < Date.now()] has
    expired and reads as [undefined] (NodeCache also deletes it, which no
    later read can observe). *)
Definition cache_get (key : str) (st : St) : option str :=
  match find (fun kv => str_eqb (fst kv) key) (cache st) with
  | Some (_, (v, t)) => if (t <? now st)%Z then None else Some v
  | None => None
  end.

(** [translationCache.set(key, value)] *)
Definition cache_set (key v : str) (st : St) : St :=
  {| cache := (key, (v, (now st + ttl_ms)%Z)) :: cache st;
     now := now st; calls := calls st |}.

(** [if (cachedTranslation)]: an empty string is falsy. *)
Definition cache_hit (key : str) (st : St) : option str :=
  match cache_get key st with
  | Some v => if is_emptyb v then None else Some v
  | None => None
  end.

Section Pipeline.

(** The SRT parser of the [subtitle] package; [None] when it throws. *)
Variable parseSRT : str -> option (list cue).

(** [crypto.createHash('md5').update(content).digest('hex')] *)
Variable md5_hex : str -> str.

(** The Gemini endpoint: the answer to the [n]-th request of the process,
    given its prompt. *)
Variable gemini : nat -> str -> response.

Definition cacheKey (content sourceLang targetLang : str) : str :=
  md5_hex content ++ lit "_" ++ sourceLang ++ lit "_" ++ targetLang.

(** [content.trim().startsWith('WEBVTT') ? 'vtt' : 'srt'] *)
Definition detect_format (content : str) : sub_format :=
  if prefixb (lit "WEBVTT") (trim content) then Vtt else Srt.

(** [batches.map(async (batch, batchIndex) => ...)]: every callback runs
    up to [await axios.post(...)] before any response is processed, so the
    [k]-th batch sends request number [calls + k]. *)
Fixpoint run_batches (sourceLang targetLang : str) (k : nat)
    (batches : list (list cue)) : list (outcome (list str)) :=
  match batches with
  | [] => []
  | b :: bs =>
      let textsToTranslate := map text b in
      handle_response textsToTranslate
        (gemini k (make_prompt sourceLang targetLang textsToTranslate))
      :: run_batches sourceLang targetLang (S k) bs
  end.

(** Lines 161-260, the body of the [try] block. *)
Definition translate_body (content sourceLang targetLang key : str) (st : St)
    : outcome str * St :=
  let cues := parseSubtitleContent parseSRT content (detect_format content) in
  match cues with
  | [] => (Ret content, st)
  | _ :: _ =>
      let batches := make_batches cues in
      let st1 := {| cache := cache st; now := now st;
                    calls := calls st + length batches |} in
      match promise_all (run_batches sourceLang targetLang (calls st) batches) with
      | Throw e => (Throw e, st1)
      | Ret translatedBatches =>
          let translatedContent :=
            convertCuesToVTT (apply_translations cues (concat translatedBatches)) in
          (Ret translatedContent, cache_set key translatedContent st1)
      end
  end.

(** [translateSubtitle(content, sourceLang, targetLang)]: cache lookup,
    then the [try] block whose [catch] returns [content]. *)
Definition translateSubtitle (content sourceLang targetLang : str) (st : St)
    : outcome str * St :=
  let key := cacheKey content sourceLang targetLang in
  match cache_hit key st with
  | Some cachedTranslation => (Ret cachedTranslation, st)
  | None =>
      match translate_body content sourceLang targetLang key st with
      | (Throw _, st') => (Ret content, st')
      | (Ret s, st') => (Ret s, st')
      end
  end.

End Pipeline.

(** ** SRT timestamps in binary64 ([lib/utils.js])

    JS numbers are IEEE-754 binary64 values, modelled with the Standard
    Library's [spec_float] at precision 53 and [emax] 1024; [+], [*] and
    [/] round to nearest even. *)

Definition prec : Z := 53.
Definition emax : Z := 1024.

Definition num := spec_float.

Definition num_of_Z (n : Z) : num :=
  match n with
  | Z0 => S754_zero false
  | Zpos p => binary_round prec emax false p 0
  | Zneg p => binary_round prec emax true p 0
  end.

Definition nadd : num -> num -> num := SFadd prec emax.
Definition nmul : num -> num -> num := SFmul prec emax.
Definition ndiv : num -> num -> num := SFdiv prec emax.

(** [x % y]: the exact remainder, with the sign of [x]. *)
Definition js_rem (x y : num) : num :=
  match x, y with
  | S754_nan, _ | _, S754_nan | S754_infinity _, _ | _, S754_zero _ => S754_nan
  | S754_zero s, _ => S754_zero s
  | S754_finite _ _ _, S754_infinity _ => x
  | S754_finite sx mx ex, S754_finite _ my ey =>
      let e := Z.min ex ey in
      let r := ((Zpos mx * 2 ^ (ex - e)) mod (Zpos my * 2 ^ (ey - e)))%Z in
      match r with
      | Zpos p => binary_round prec emax sx p e
      | _ => S754_zero sx
      end
  end.

(** [Math.floor(x)] *)
Definition js_floor (x : num) : num :=
  match x with
  | S754_finite s m e =>
      if (0 <=? e)%Z then x
      else num_of_Z (Z.div (if s then Z.opp (Zpos m) else Zpos m) (2 ^ (- e))%Z)
  | _ => x
  end.

(** [String(n)] for an integral number below [1e21] (the only values
    [formatSrtTimestamp] prints). *)
Definition int_str (x : num) : str :=
  match x with
  | S754_nan => lit "NaN"
  | S754_infinity s => (if s then lit "-" else []) ++ lit "Infinity"
  | S754_zero _ => lit "0"
  | S754_finite s m e =>
      let v := (if 0 <=? e then Zpos m * 2 ^ e else Zpos m / 2 ^ (- e))%Z in
      (if s then lit "-" else []) ++ nat_str (Z.to_nat v)
  end.

(** [s.padStart(n, '0')] *)
Definition pad_start (n : nat) (s : str) : str :=
  repeat "0"%char (n - length s) ++ s.

(** [formatSrtTimestamp(seconds)] *)
Definition formatSrtTimestamp (seconds : num) : str :=
  let hours := js_floor (ndiv seconds (num_of_Z 3600)) in
  let minutes := js_floor (ndiv (js_rem seconds (num_of_Z 3600)) (num_of_Z 60)) in
  let secs := js_floor (js_rem seconds (num_of_Z 60)) in
  let milliseconds := js_floor (nmul (js_rem seconds (num_of_Z 1)) (num_of_Z 1000)) in
  pad_start 2 (int_str hours) ++ lit ":" ++ pad_start 2 (int_str minutes)
  ++ lit ":" ++ pad_start 2 (int_str secs) ++ lit ","
  ++ pad_start 3 (int_str milliseconds).

(** [/(\d{2}):(\d{2}):(\d{2}),(\d{3})/] *)
Definition srt_ts_pat : list cls :=
  [Dig; Dig] ++ chrs ":" ++ [Dig; Dig] ++ chrs ":" ++ [Dig; Dig] ++ chrs ","
  ++ [Dig; Dig; Dig].

Fixpoint srt_ts_search (l : str) : option str :=
  match match_pat srt_ts_pat l with
  | Some (m, _) => Some m
  | None => match l with [] => None | _ :: t => srt_ts_search t end
  end.

(** [parseInt(d, 10)] on a string of decimal digits. *)
Definition digits_value (d : str) : Z :=
  fold_left (fun acc c => acc * 10 + (Z.of_nat (nat_of_ascii c) - 48))%Z d 0%Z.

Definition slice (i j : nat) (l : str) : str := firstn (j - i) (skipn i l).

(** [parseSrtTimestamp(timestamp)] *)
Definition parseSrtTimestamp (timestamp : str) : num :=
  match srt_ts_search timestamp with
  | None => S754_zero false
  | Some m =>
      let hours := num_of_Z (digits_value (slice 0 2 m)) in
      let minutes := num_of_Z (digits_value (slice 3 5 m)) in
      let seconds := num_of_Z (digits_value (slice 6 8 m)) in
      let milliseconds := num_of_Z (digits_value (slice 9 12 m)) in
      nadd (nadd (nadd (nmul hours (num_of_Z 3600)) (nmul minutes (num_of_Z 60)))
                 seconds)
           (ndiv milliseconds (num_of_Z 1000))
  end.

(** ** [lib/utils.js]: language codes *)

(** [s.toLowerCase()] on 8-bit code points: [A-Z] and the Latin-1 capitals
    U+00C0-U+00DE (except U+00D7) move up by 32. *)
Definition lower_char (c : ascii) : ascii :=
  let n := nat_of_ascii c in
  if ((65 <=? n) && (n <=? 90)) || ((192 <=? n) && (n <=? 222) && negb (n =? 215))
  then ascii_of_nat (n + 32) else c.

Definition toLowerCase (l : str) : str := map lower_char l.

(** The [languageMappings] object of [convertLanguageCode], in insertion
    order (the order of [Object.entries]). *)
Definition languageMappings : list (str * (str * str)) :=
  map (fun e => (lit (fst e), (lit (fst (snd e)), lit (snd (snd e)))))
  [("en", ("eng", "English")); ("es", ("spa", "Spanish"));
   ("fr", ("fra", "French")); ("de", ("deu", "German"));
   ("it", ("ita", "Italian")); ("pt", ("por", "Portuguese"));
   ("ru", ("rus", "Russian")); ("ja", ("jpn", "Japanese"));
   ("zh", ("zho", "Chinese")); ("ko", ("kor", "Korean"));
   ("ar", ("ara", "Arabic")); ("hi", ("hin", "Hindi"));
   ("tr", ("tur", "Turkish")); ("pl", ("pol", "Polish"));
   ("nl", ("nld", "Dutch")); ("sv", ("swe", "Swedish"));
   ("el", ("ell", "Greek")); ("he", ("heb", "Hebrew"));
   ("vi", ("vie", "Vietnamese")); ("th", ("tha", "Thai"));
   ("no", ("nor", "Norwegian")); ("fi", ("fin", "Finnish"));
   ("da", ("dan", "Danish")); ("cs", ("ces", "Czech"));
   ("hu", ("hun", "Hungarian")); ("ro", ("ron", "Romanian"));
   ("uk", ("ukr", "Ukrainian")); ("id", ("ind", "Indonesian"));
   ("fa", ("fas", "Persian")); ("ms", ("msa", "Malay"))]%string.

(** [languageMappings[k]]; no two-character name is inherited from
    [Object.prototype], the only names looked up this way by line 125. *)
Definition mapping_get (k : str) : option (str * str) :=
  match find (fun kv => str_eqb (fst kv) k) languageMappings with
  | Some (_, v) => Some v
  | None => None
  end.

(** The [for (const [key, value] of Object.entries(...))] searches of lines
    130-135 and 138-143, comparing [value[0]] or [value[1]]. *)
Definition find_iso1 (field : str * str -> str) (lang : str) : option str :=
  match find (fun kv => str_eqb (toLowerCase (field (snd kv))) (toLowerCase lang))
         languageMappings with
  | Some (key, _) => Some key
  | None => None
  end.

(** Lines 121-144: the value of [iso1], [None] while it is [undefined]. *)
Definition input_iso1 (lang : str) : option str :=
  if (length lang =? 2)
     && match mapping_get (toLowerCase lang) with Some _ => true | None => false end
  then Some (toLowerCase lang)
  else if length lang =? 3 then find_iso1 fst lang
  else find_iso1 snd lang.

(** [convertLanguageCode(lang, targetFormat)]; reading [[0]] or [[1]] of
    a missing entry would throw a [TypeError]. *)
Definition convertLanguageCode (lang targetFormat : str) : outcome str :=
  match input_iso1 lang with
  | None => Ret lang
  | Some iso1 =>
      if str_eqb targetFormat (lit "iso1") then Ret iso1
      else if str_eqb targetFormat (lit "iso2") then
        match mapping_get iso1 with Some (v0, _) => Ret v0 | None => Throw TypeError end
      else if str_eqb targetFormat (lit "name") then
        match mapping_get iso1 with Some (_, v1) => Ret v1 | None => Throw TypeError end
      else Ret iso1
  end.

(** ** [lib/utils.js]: IMDb ids *)

(** A [t] of the case-insensitive regex ([/i]): [t] or [T]. *)
Definition is_t (c : ascii) : bool := Ascii.eqb c "t"%char || Ascii.eqb c "T"%char.

(** The longest run of digits at the start of a string. *)
Fixpoint digit_run (l : str) : str :=
  match l with
  | c :: t => if is_digit c then c :: digit_run t else []
  | [] => []
  end.

(** [(\d{7,})] at the start of [l]: greedy, so the whole digit run. *)
Definition digits7 (l : str) : option str :=
  let d := digit_run l in if 7 <=? length d then Some d else None.

(** [id.match(/^(tt)?(\d{7,})/i)], group 2: the optional [tt] is tried
    first, then the match backtracks to the empty alternative. *)
Definition tt_rest (id : str) : option str :=
  match id with
  | a :: b :: rest => if is_t a && is_t b then Some rest else None
  | _ => None
  end.

Definition imdb_match (id : str) : option str :=
  match tt_rest id with
  | Some rest => match digits7 rest with Some d => Some d | None => digits7 id end
  | None => digits7 id
  end.

(** [parseImdbId(id)]: [None] for [null]. *)
Definition parseImdbId (id : str) : option str :=
  match imdb_match id with
  | Some d => Some (lit "tt" ++ d)
  | None => None
  end.

(** ** [lib/utils.js]: retrying with exponential backoff *)

(** What [retryWithExponentialBackoff] does, in order: call the operation,
    or wait ([await delay(ms)]). *)
Inductive retry_event := Call | Wait (ms : Z).

Section Retry.

Variables A E : Type.

(** The outcome of the operation's [n]-th call (from 0): a value or the
    error it throws. *)
Variable operation : nat -> A + E.

(** [baseDelay], an integer number of milliseconds. *)
Variable baseDelay : Z.

(** The [while (true)] loop from the state [retries]; [left] is
    [maxRetries - retries], so [retries + 1 > maxRetries] is [left = 0].
    The wait is [baseDelay * Math.pow(2, (retries + 1) - 1)]. *)
Fixpoint retry_loop (retries left : nat) : (A + E) * list retry_event :=
  match operation retries with
  | inl a => (inl a, [Call])
  | inr e =>
      match left with
      | O => (inr e, [Call])
      | S left' =>
          let delayTime := (baseDelay * 2 ^ Z.of_nat retries)%Z in
          let '(r, tr) := retry_loop (S retries) left' in
          (r, Call :: Wait delayTime :: tr)
      end
  end.

(** [retryWithExponentialBackoff(operation, maxRetries, baseDelay)] for a
    non-negative integer [maxRetries]: [inl] for the value it resolves to,
    [inr] for the error it rethrows. *)
Definition retryWithExponentialBackoff (maxRetries : nat)
    : (A + E) * list retry_event :=
  retry_loop 0 maxRetries.

End Retry.

Arguments retry_loop {A E} operation baseDelay retries left.
Arguments retryWithExponentialBackoff {A E} operation baseDelay maxRetries.

(** ** The subtitle router (the route handler calling [translateSubtitle]) *)

(** The branches of [router.get('/:mediaId/:subtitleId', ...)] before any
    I/O: a translation request with its [targetLang], the [400] answer, or
    a regular subtitle request. *)
Inductive route_action :=
  | TranslateRequest (targetLang : str)
  | BadRequestFormat
  | RegularRequest.

(** Lines 30-42. *)
Definition subtitle_route_action (subtitleId : str) : route_action :=
  if prefixb (lit "translate_") subtitleId then
    let parts := split_on "_"%char subtitleId in
    if length parts <? 2 then BadRequestFormat
    else TranslateRequest (nth 1 parts [])
  else RegularRequest.

(** ** The Stremio subtitles handler ([addon.js], lines 12-153) *)

(** A subtitle id: the handler's own options have string ids; the ids of
    [findSubtitles] are [item.attributes.files[0].file_id], whatever JSON
    value the API sends, here a string or a number. *)
Inductive js_id := IdStr (s : str) | IdNum (n : Z).

(** A subtitle object. Only the properties the handler reads or that
    identify an option are kept: [id], [url], [lang] and [rating]; the
    display texts [langName] and [title] and the other properties of the
    found subtitles are copied unchanged and not modelled. *)
Record subtitle_obj := mk_subtitle {
  sid : js_id; surl : str; slang : str; srating : num }.

(** [s.includes(pat)] *)
Fixpoint includes (pat s : str) : bool :=
  prefixb pat s || match s with [] => false | _ :: t => includes pat t end.

(** [sub.id.includes(pat)]: a number has no [includes] method. *)
Definition id_includes (i : js_id) (pat : str) : outcome bool :=
  match i with
  | IdStr s => Ret (includes pat s)
  | IdNum _ => Throw TypeError
  end.

(** [`${sub.id}`] (an integral number is printed in decimal). *)
Definition id_str (i : js_id) : str :=
  match i with
  | IdStr s => s
  | IdNum n => (if (n <? 0)%Z then lit "-" else []) ++ nat_str (Z.to_nat (Z.abs n))
  end.

(** [arr.filter(pred)] with a predicate that may throw. *)
Fixpoint filter_js (p : subtitle_obj -> outcome bool) (l : list subtitle_obj)
    : outcome (list subtitle_obj) :=
  match l with
  | [] => Ret []
  | x :: t =>
      match p x with
      | Throw e => Throw e
      | Ret b =>
          match filter_js p t with
          | Throw e => Throw e
          | Ret r => Ret (if b then x :: r else r)
          end
      end
  end.

(** [!sub.id.includes('subtito_translate_')] *)
Definition not_translated (sub : subtitle_obj) : outcome bool :=
  match id_includes (sid sub) (lit "subtito_translate_") with
  | Ret b => Ret (negb b)
  | Throw e => Throw e
  end.

(** [a || b] on strings: the empty string and [undefined] are falsy. *)
Definition js_or_str (a : option str) (b : str) : str :=
  match a with Some s => if is_emptyb s then b else s | None => b end.

(** [userConfig.targetLanguage || extra.language || 'el'] *)
Definition userLang_of (targetLanguage language : option str) : str :=
  js_or_str targetLanguage (js_or_str language (lit "el")).

(** [http://${localIp}:${port}/subtitles/any/translate_${userLang}.vtt] *)
Definition universal_url (localIp port userLang : str) : str :=
  lit "http://" ++ localIp ++ lit ":" ++ port ++ lit "/subtitles/any/translate_"
  ++ userLang ++ lit ".vtt".

(** [translationOption] (lines 57-65), and [fallbackOption] (142-149),
    which has the same properties. *)
Definition translation_option (mediaId userLang localIp port : str) : subtitle_obj :=
  mk_subtitle (IdStr (lit "translate_" ++ mediaId ++ lit "_" ++ userLang))
    (universal_url localIp port userLang) userLang (num_of_Z 10).

(** [specificTranslationOption] for [subsToTranslate[i]] (lines 85-93). *)
Definition specific_option (baseUrl mediaId userLang : str) (i : nat)
    (sub : subtitle_obj) : subtitle_obj :=
  mk_subtitle (IdStr (id_str (sid sub) ++ lit "_translate_" ++ userLang))
    (baseUrl ++ lit "/subtitles/" ++ mediaId ++ lit "/" ++ id_str (sid sub)
     ++ lit "_translate_" ++ userLang ++ lit ".vtt")
    userLang (num_of_Z (9 - Z.of_nat i)).

(** The Greek filter of step 4: [sub.lang === 'el' && !sub.id.includes(...)]. *)
Definition greek_pred (sub : subtitle_obj) : outcome bool :=
  if str_eqb (slang sub) (lit "el") then not_translated sub else Ret false.

(** Steps 1-4, the body of the [try] block; [found] is the outcome of
    [await subtitleService.findSubtitles(type, mediaId)]. *)
Definition handler_try (found : outcome (list subtitle_obj))
    (mediaId userLang localIp port baseUrl : str) : outcome (list subtitle_obj) :=
  match found with
  | Throw e => Throw e
  | Ret found =>
  let subtitles := found ++ [translation_option mediaId userLang localIp port] in
  let step3 :=
    if 1 <? length subtitles then
      match filter_js (fun sub => if str_eqb (slang sub) (lit "en")
                                  then not_translated sub else Ret false) subtitles with
      | Throw e => Throw e
      | Ret englishSubs =>
      match filter_js (fun sub => if negb (str_eqb (slang sub) (lit "en"))
                                     && negb (str_eqb (slang sub) userLang)
                                  then not_translated sub else Ret false) subtitles with
      | Throw e => Throw e
      | Ret otherSubs =>
      let subsToTranslate := if 0 <? length englishSubs then englishSubs else otherSubs in
      Ret (subtitles ++ map (fun p => specific_option baseUrl mediaId userLang (fst p) (snd p))
                        (combine (seq 0 (Nat.min (length subsToTranslate) 3)) subsToTranslate))
      end end
    else Ret subtitles in
  match step3 with
  | Throw e => Throw e
  | Ret subtitles =>
  match filter_js greek_pred subtitles with
  | Throw e => Throw e
  | Ret greekSubs =>
      (* [greekSubs.forEach(sub => { sub.rating = 11 })] mutates the objects
         of [subtitles] that passed the filter. *)
      Ret (map (fun sub => match greek_pred sub with
                           | Ret true => mk_subtitle (sid sub) (surl sub) (slang sub)
                                           (num_of_Z 11)
                           | _ => sub
                           end) subtitles)
  end end
  end.

(** The handler: the [subtitles] it returns; the [catch] returns the
    fallback option alone. *)
Definition subtitles_handler (targetLanguage language : option str)
    (found : outcome (list subtitle_obj)) (mediaId localIp port baseUrl : str)
    : list subtitle_obj :=
  let userLang := userLang_of targetLanguage language in
  match handler_try found mediaId userLang localIp port baseUrl with
  | Ret subtitles => subtitles
  | Throw _ => [translation_option mediaId userLang localIp port]
  end.

(** ** Sample inputs *)

Definition hello_cue : cue :=
  mk_cue (lit "00:00:01.000") (lit "00:00:05.000") (lit "Hello").

(** A VTT document of [n] cues, as [convertCuesToVTT] writes it. *)
Definition sample_vtt (n : nat) : str := convertCuesToVTT (repeat hello_cue n).

(** The single-cue document of the spec's example scenario. *)
Definition spec_example : str :=
  lit "WEBVTT" ++ [nl; nl] ++ lit "1" ++ [nl]
  ++ lit "00:00:01.000 --> 00:00:05.000" ++ [nl] ++ lit "Hello".

Definition sample_srt : str :=
  lit "1" ++ [nl] ++ lit "00:00:01,000 --> 00:00:05,000" ++ [nl]
  ++ lit "Hello" ++ [nl].

(** A well-formed Gemini answer carrying [t]. *)
Definition gemini_reply (t : str) : response :=
  Reply (Some {| candidates := Some [{| ccontent :=
    Some {| parts := Some [{| ptext := Some t |}] |} |}] |}).

(** Stand-ins for the collaborators. *)
Definition identity_hash (c : str) : str := c.
Definition no_srt (c : str) : option (list cue) := None.
Definition srt_one_cue (c : str) : option (list cue) :=
  Some [mk_cue (lit "00:00:01,000") (lit "00:00:05,000") (lit "Hello")].

(** Models that always answer [Geia], that always fail, and that answer
    the first call with ten separated segments and fail afterwards. *)
Definition greek_model (k : nat) (prompt : str) : response :=
  gemini_reply (lit "Geia").
Definition failing_model (k : nat) (prompt : str) : response := HttpFailure.
Definition first_batch_only (k : nat) (prompt : str) : response :=
  if Nat.eqb k 0 then gemini_reply (join_with seg_sep (repeat (lit "Geia") 10))
  else HttpFailure.

Definition short_model (k : nat) (prompt : str) : response :=
  gemini_reply (lit "x").

Definition geia_cue : cue := with_text hello_cue (lit "Geia").

Definition empty_state : St := mk_st [] 0 0.

(** ** Lemmas on the string model *)

Lemma split_on_nonempty c l : split_on c l <> [].
Proof.
  induction l as [|x t IH]; simpl; [discriminate|].
  destruct (Ascii.eqb x c); [discriminate|].
  destruct (split_on c t); discriminate.
Qed.

Lemma split_on_app c t r :
  split_on c (t ++ c :: r) = split_on c t ++ split_on c r.
Proof.
  induction t as [|x t IH]; simpl.
  - rewrite Ascii.eqb_refl. reflexivity.
  - rewrite IH. destruct (Ascii.eqb x c); [reflexivity|].
    destruct (split_on c t) eqn:E; [exfalso; exact (split_on_nonempty c t E)|].
    reflexivity.
Qed.

Lemma split_on_no_sep c w : ~ In c w -> split_on c w = [w].
Proof.
  induction w as [|x t IH]; intros Hn; simpl; [reflexivity|].
  destruct (Ascii.eqb_spec x c) as [->|_]; [exfalso; apply Hn; left; reflexivity|].
  rewrite IH; [reflexivity|]. intros Hin; apply Hn; right; exact Hin.
Qed.

Lemma join_split c l : join_with [c] (split_on c l) = l.
Proof.
  induction l as [|x t IH]; simpl; [reflexivity|].
  destruct (Ascii.eqb_spec x c) as [->|_].
  - destruct (split_on c t) as [|w ws] eqn:E;
      [exfalso; exact (split_on_nonempty c t E)|].
    simpl in IH |- *. rewrite IH. reflexivity.
  - destruct (split_on c t) as [|w ws] eqn:E;
      [exfalso; exact (split_on_nonempty c t E)|].
    simpl in IH |- *. rewrite IH. reflexivity.
Qed.

Lemma drop_ws_cons x t : is_ws x = false -> drop_ws (x :: t) = x :: t.
Proof. intros H; simpl; rewrite H; reflexivity. Qed.

Lemma trim_fixed l :
  drop_ws l = l -> drop_ws (rev l) = rev l -> trim l = l.
Proof.
  intros H1 H2; unfold trim; rewrite H1, H2; apply rev_involutive.
Qed.

Lemma digit_not_ws c : is_digit c = true -> is_ws c = false.
Proof.
  intros Hd. unfold is_ws.
  destruct (existsb (Ascii.eqb c) ws_chars) eqn:E; [|reflexivity].
  apply existsb_exists in E as [x [Hin Hx]].
  apply Ascii.eqb_eq in Hx; subst x.
  simpl in Hin.
  repeat (destruct Hin as [<-|Hin]; [discriminate Hd|]); contradiction.
Qed.

Lemma digits_drop_ws l : forallb is_digit l = true -> drop_ws l = l.
Proof.
  destruct l as [|x t]; intros H; [reflexivity|].
  simpl in H; apply andb_prop in H as [Hx _].
  apply drop_ws_cons, digit_not_ws, Hx.
Qed.

Lemma forallb_rev {A} (f : A -> bool) l :
  forallb f l = true -> forallb f (rev l) = true.
Proof.
  rewrite !forallb_forall; intros H x Hx; apply H, in_rev, Hx.
Qed.

Lemma trim_digits l : forallb is_digit l = true -> trim l = l.
Proof.
  intros H. apply trim_fixed; apply digits_drop_ws; [exact H|].
  apply forallb_rev, H.
Qed.

Lemma digits_not_in l c :
  forallb is_digit l = true -> is_digit c = false -> ~ In c l.
Proof.
  rewrite forallb_forall; intros H Hc Hin. rewrite (H c Hin) in Hc. discriminate.
Qed.

Lemma digit_char_digit k : k < 10 -> is_digit (digit_char k) = true.
Proof. intros H. do 10 (destruct k as [|k]; [reflexivity|]). lia. Qed.

Lemma nat_str_aux_digits f n acc :
  forallb is_digit acc = true -> forallb is_digit (nat_str_aux f n acc) = true.
Proof.
  revert n acc; induction f as [|f IH]; intros n acc H; simpl; [exact H|].
  assert (Hd : forallb is_digit (digit_char (n mod 10) :: acc) = true).
  { cbn [forallb]. rewrite digit_char_digit, H; [reflexivity|].
    apply Nat.mod_upper_bound; discriminate. }
  destruct (n <? 10); [exact Hd|apply IH, Hd].
Qed.

Lemma nat_str_aux_nonempty f n acc : acc <> [] -> nat_str_aux f n acc <> [].
Proof.
  revert n acc; induction f as [|f IH]; intros n acc H; simpl; [exact H|].
  destruct (n <? 10); [discriminate|apply IH; discriminate].
Qed.

Lemma nat_str_all_digits n : all_digits (nat_str n) = true.
Proof.
  unfold all_digits, nat_str.
  rewrite (nat_str_aux_digits (S n) n [] eq_refl), andb_true_r.
  assert (Hd : digit_char (n mod 10) :: [] <> []) by discriminate.
  cbn [nat_str_aux]. destruct (n <? 10); [reflexivity|].
  destruct (nat_str_aux n (n / 10) _) eqn:E; [|reflexivity].
  exfalso; exact (nat_str_aux_nonempty _ _ _ Hd E).
Qed.

Lemma all_digits_forallb l : all_digits l = true -> forallb is_digit l = true.
Proof. unfold all_digits; intros H; apply andb_prop in H as [_ H]; exact H. Qed.

(** Character-class matching. *)

Lemma match_pat_app p l m r x :
  match_pat p l = Some (m, r) -> match_pat p (l ++ x) = Some (m, r ++ x).
Proof.
  revert l m r; induction p as [|k p IH]; intros l m r H; simpl in H |- *.
  - injection H as <- <-; reflexivity.
  - destruct l as [|y t]; [discriminate|]. simpl.
    destruct (cls_ok k y); [|discriminate].
    destruct (match_pat p t) as [[m' r']|] eqn:E; [|discriminate].
    injection H as <- <-. rewrite (IH _ _ _ E). reflexivity.
Qed.

Lemma match_pat_chr p l m r d :
  match_pat p l = Some (m, r) -> In (Chr d) p -> In d l.
Proof.
  revert l m r; induction p as [|k p IH]; intros l m r H Hin; [destruct Hin|].
  simpl in H. destruct l as [|y t]; [discriminate|].
  destruct (cls_ok k y) eqn:Hk; [|discriminate].
  destruct (match_pat p t) as [[m' r']|] eqn:E; [|discriminate].
  destruct Hin as [->|Hin].
  - simpl in Hk. apply Ascii.eqb_eq in Hk. left; exact Hk.
  - right. exact (IH _ _ _ E Hin).
Qed.

Lemma full_match_forall2 p l :
  full_match p l = true -> Forall2 (fun k c => cls_ok k c = true) p l.
Proof.
  unfold full_match. revert l; induction p as [|k p IH]; intros l H; simpl in H.
  - destruct l; [constructor|discriminate].
  - destruct l as [|y t]; [discriminate|].
    destruct (cls_ok k y) eqn:Hk; [|discriminate].
    destruct (match_pat p t) as [[m' [|z r']]|] eqn:E; try discriminate.
    constructor; [exact Hk|]. apply IH. rewrite E. reflexivity.
Qed.

Lemma full_match_self p l : full_match p l = true -> match_pat p l = Some (l, []).
Proof.
  unfold full_match. revert l; induction p as [|k p IH]; intros l H; simpl in H |- *.
  - destruct l; [reflexivity|discriminate].
  - destruct l as [|y t]; [discriminate|].
    destruct (cls_ok k y); [|discriminate].
    destruct (match_pat p t) as [[m' [|z r']]|] eqn:E; try discriminate.
    assert (Ht : t = m').
    { specialize (IH t). rewrite E in IH. specialize (IH eq_refl).
      congruence. }
    subst. reflexivity.
Qed.

Lemma timing_alt_colon a1 a2 l g :
  timing_alt a1 a2 l = Some g -> In (Chr ":") a1 -> In ":"%char l.
Proof.
  unfold timing_alt. intros H Hin.
  destruct (match_pat a1 l) as [[g1 r]|] eqn:E; [|discriminate].
  exact (match_pat_chr _ _ _ _ _ E Hin).
Qed.

Lemma timing_match_colon l g : timing_match l = Some g -> In ":"%char l.
Proof.
  induction l as [|x t IH]; intros H.
  - discriminate H.
  - simpl in H. destruct (timing_at (x :: t)) as [g'|] eqn:E.
    + unfold timing_at in E.
      assert (H1 : In (Chr ":") ts_long) by (simpl; tauto).
      assert (H2 : In (Chr ":") ts_short) by (simpl; tauto).
      destruct (timing_alt ts_long ts_long _) eqn:E1;
        [exact (timing_alt_colon _ _ _ _ E1 H1)|].
      destruct (timing_alt ts_long ts_short _) eqn:E2;
        [exact (timing_alt_colon _ _ _ _ E2 H1)|].
      destruct (timing_alt ts_short ts_long _) eqn:E3;
        [exact (timing_alt_colon _ _ _ _ E3 H2)|].
      exact (timing_alt_colon _ _ _ _ E H2).
    + right. exact (IH H).
Qed.

Lemma digits_no_timing l : forallb is_digit l = true -> timing_match l = None.
Proof.
  intros H. destruct (timing_match l) eqn:E; [|reflexivity].
  exfalso. apply timing_match_colon in E.
  exact (digits_not_in l ":"%char H eq_refl E).
Qed.

(** The two timestamp shapes. *)

Ltac inv_forall2 H :=
  match type of H with
  | Forall2 _ (_ :: _) _ =>
      let Hr := fresh "Hr" in
      inversion H as [|? ? ? ? ? Hr]; subst; clear H; inv_forall2 Hr
  | Forall2 _ [] _ => inversion H; subst; clear H
  end.

Ltac chars_from_eqb :=
  repeat match goal with
  | H : cls_ok (Chr _) ?x = true |- _ =>
      cbn [cls_ok] in H; apply Ascii.eqb_eq in H; subst x
  | H : cls_ok Dig ?x = true |- _ => cbn [cls_ok] in H
  end.

Lemma ts_cases (P : str -> Prop) t :
  valid_ts t = true ->
  (forall a b c d e f g h i,
     is_digit a = true -> is_digit b = true -> is_digit c = true ->
     is_digit d = true -> is_digit e = true -> is_digit f = true ->
     is_digit g = true -> is_digit h = true -> is_digit i = true ->
     P [a; b; ":"; c; d; ":"; e; f; "."; g; h; i]%char) ->
  (forall a b c d e f g,
     is_digit a = true -> is_digit b = true -> is_digit c = true ->
     is_digit d = true -> is_digit e = true -> is_digit f = true ->
     is_digit g = true ->
     P [a; b; ":"; c; d; "."; e; f; g]%char) ->
  P t.
Proof.
  unfold valid_ts. intros H Hl Hs.
  apply orb_prop in H as [H|H]; apply full_match_forall2 in H;
    unfold ts_long, ts_short, chrs, lit in H; simpl in H;
    inv_forall2 H; chars_from_eqb; auto.
Qed.

Ltac digits_rewrite :=
  repeat match goal with
  | H : is_digit ?x = true |- context [is_digit ?x] => rewrite H
  | H : is_digit ?x = true |- context [is_ws ?x] => rewrite (digit_not_ws x H)
  end.

Lemma nl_not_in_ts t : valid_ts t = true -> ~ In nl t.
Proof.
  intros H. apply (ts_cases (fun t => ~ In nl t) t H); intros; intros Hin;
    repeat (destruct Hin as [Hx|Hin]; [subst; discriminate|]); destruct Hin.
Qed.

Lemma timing_match_at l g : timing_at l = Some g -> timing_match l = Some g.
Proof. intros H; destruct l; cbn [timing_match]; rewrite H; reflexivity. Qed.

Lemma timing_line_facts s e :
  valid_ts s = true -> valid_ts e = true ->
  trim (s ++ arrow ++ e) = s ++ arrow ++ e
  /\ timing_match (s ++ arrow ++ e) = Some (s, e)
  /\ exists x t, s ++ arrow ++ e = x :: t /\ is_digit x = true.
Proof.
  intros Hs He.
  apply (ts_cases (fun s => _) s Hs); intros;
  apply (ts_cases (fun e => _) e He); intros;
  unfold arrow, lit;
  (split; [apply trim_fixed; cbv -[is_digit is_ws]; digits_rewrite; reflexivity|];
   split; [apply timing_match_at; cbv -[is_digit is_ws];
           digits_rewrite; reflexivity|];
   eexists; eexists; split; [reflexivity|assumption]).
Qed.

(** The VTT loop on the lines written by [convertCuesToVTT]. *)

Lemma head_digit_not_header x t :
  is_digit x = true ->
  str_eqb (x :: t) (lit "WEBVTT") = false /\ prefixb (lit "NOTE") (x :: t) = false.
Proof.
  intros Hx. split.
  - unfold str_eqb. destruct (list_eq_dec ascii_dec _ _) as [E|_]; [|reflexivity].
    injection E as -> _. discriminate Hx.
  - cbn [lit list_ascii_of_string prefixb].
    destruct (Ascii.eqb_spec "N" x) as [<-|_]; [discriminate Hx|reflexivity].
Qed.

Lemma loop_blank rest acc cur :
  vtt_loop ([] :: rest) acc cur false = vtt_loop rest acc cur false.
Proof. reflexivity. Qed.

Lemma loop_index n rest acc cur :
  vtt_loop (nat_str n :: rest) acc cur false = vtt_loop rest acc cur false.
Proof.
  pose proof (nat_str_all_digits n) as Hd.
  pose proof (all_digits_forallb _ Hd) as Hf.
  destruct (nat_str n) as [|x t] eqn:E; [discriminate Hd|].
  pose proof Hf as Hf'. simpl in Hf'. apply andb_prop in Hf' as [Hx _].
  destruct (head_digit_not_header x t Hx) as [Hw Hn].
  cbn [vtt_loop]. rewrite (trim_digits _ Hf).
  rewrite Hw, Hn. cbn [is_emptyb orb].
  rewrite (digits_no_timing _ Hf).
  destruct cur; [rewrite Hd|]; reflexivity.
Qed.

Lemma loop_timing c rest acc cur :
  valid_ts (start c) = true -> valid_ts (end_ c) = true ->
  vtt_loop ((start c ++ arrow ++ end_ c) :: rest) acc cur false
  = vtt_loop rest (push_opt acc cur) (Some (with_text c [])) false.
Proof.
  intros Hs He.
  destruct (timing_line_facts _ _ Hs He) as [Ht [Hm [x [t [E Hx]]]]].
  destruct (head_digit_not_header x t Hx) as [Hw Hn].
  cbn [vtt_loop]. rewrite Ht, Hm, E, Hw, Hn. reflexivity.
Qed.

Lemma valid_line_facts w :
  valid_text_line w = true ->
  trim w = w /\ is_emptyb w = false /\ str_eqb w (lit "WEBVTT") = false
  /\ prefixb (lit "NOTE") w = false /\ timing_match w = None
  /\ all_digits w = false.
Proof.
  unfold valid_text_line. intros H.
  repeat (apply andb_prop in H as [H ?]).
  repeat match goal with Hb : negb _ = true |- _ => apply negb_true_iff in Hb end.
  match goal with Hb : str_eqb (trim w) w = true |- _ =>
    unfold str_eqb in Hb; destruct (list_eq_dec ascii_dec (trim w) w) as [Etr|];
    [|discriminate Hb] end.
  destruct (timing_match w); [discriminate|].
  repeat split; assumption.
Qed.

Lemma loop_text_line w rest acc c :
  valid_text_line w = true ->
  vtt_loop (w :: rest) acc (Some c) false
  = vtt_loop rest acc (Some (append_text c w)) false.
Proof.
  intros H. destruct (valid_line_facts w H) as [Ht [He [Hw [Hn [Hm Hd]]]]].
  cbn [vtt_loop]. rewrite Ht, He, Hw, Hn, Hm, Hd. reflexivity.
Qed.

Lemma loop_text ls : forall t c rest acc,
  forallb valid_text_line ls = true -> t <> [] ->
  vtt_loop (ls ++ rest) acc (Some (with_text c t)) false
  = vtt_loop rest acc
      (Some (with_text c (t ++ concat (map (fun y => [nl] ++ y) ls)))) false.
Proof.
  induction ls as [|w ls IH]; intros t c rest acc Hv Ht.
  - simpl. rewrite app_nil_r. reflexivity.
  - simpl in Hv. apply andb_prop in Hv as [Hw Hv].
    cbn [app]. rewrite loop_text_line by exact Hw.
    assert (Ea : append_text (with_text c t) w = with_text c (t ++ [nl] ++ w)).
    { unfold append_text, with_text. simpl.
      destruct t; [contradiction|reflexivity]. }
    rewrite Ea, IH by (exact Hv || (destruct t; [contradiction|discriminate])).
    cbn [map concat]. rewrite <- !app_assoc. reflexivity.
Qed.

Lemma loop_cue_text c rest acc :
  forallb valid_text_line (split_on nl (text c)) = true ->
  vtt_loop (split_on nl (text c) ++ rest) acc (Some (with_text c [])) false
  = vtt_loop rest acc (Some c) false.
Proof.
  intros Hv. pose proof (join_split nl (text c)) as Ej.
  destruct (split_on nl (text c)) as [|w ws] eqn:E;
    [exfalso; exact (split_on_nonempty _ _ E)|].
  simpl in Hv. apply andb_prop in Hv as [Hw Hv].
  cbn [app]. rewrite loop_text_line by exact Hw.
  assert (Ea : append_text (with_text c []) w = with_text c w) by reflexivity.
  destruct (valid_line_facts w Hw) as [_ [He _]].
  rewrite Ea, loop_text by (exact Hv || (destruct w; [discriminate He|discriminate])).
  cbv beta iota delta [join_with] in Ej. rewrite Ej. destruct c; reflexivity.
Qed.

Lemma split_cue_block i c r :
  roundtrip_cue c = true ->
  split_on nl (cue_block i c ++ r)
  = nat_str (i + 1) :: (start c ++ arrow ++ end_ c)
    :: split_on nl (text c) ++ [] :: split_on nl r.
Proof.
  unfold roundtrip_cue. intros H.
  apply andb_prop in H as [H _]. apply andb_prop in H as [Hs He].
  assert (Eb : cue_block i c ++ r
    = nat_str (i + 1) ++ nl :: ((start c ++ arrow ++ end_ c)
        ++ nl :: (text c ++ nl :: ([] ++ nl :: r)))).
  { unfold cue_block. rewrite <- !app_assoc. reflexivity. }
  rewrite Eb, !split_on_app.
  rewrite (split_on_no_sep _ (nat_str (i + 1))).
  2:{ apply digits_not_in; [apply all_digits_forallb, nat_str_all_digits|reflexivity]. }
  rewrite (split_on_no_sep _ (start c ++ arrow ++ end_ c)).
  2:{ rewrite !in_app_iff. intros [Hin|[Hin|Hin]].
      - exact (nl_not_in_ts _ Hs Hin).
      - simpl in Hin. repeat (destruct Hin as [Hx|Hin]; [discriminate Hx|]); exact Hin.
      - exact (nl_not_in_ts _ He Hin). }
  reflexivity.
Qed.

Lemma loop_body cues : forall i acc cur,
  forallb roundtrip_cue cues = true ->
  let '(a, c) := vtt_loop (split_on nl (vtt_body i cues)) acc cur false in
  push_opt a c = push_opt acc cur ++ cues.
Proof.
  induction cues as [|c cs IH]; intros i acc cur Hv.
  - simpl. rewrite app_nil_r. reflexivity.
  - simpl in Hv. apply andb_prop in Hv as [Hc Hv].
    cbn [vtt_body]. rewrite split_cue_block by exact Hc.
    rewrite loop_index.
    unfold roundtrip_cue in Hc.
    apply andb_prop in Hc as [Hc Ht]. apply andb_prop in Hc as [Hs He].
    rewrite loop_timing by assumption.
    rewrite loop_cue_text by exact Ht.
    rewrite loop_blank.
    specialize (IH (S i) (push_opt acc cur) (Some c) Hv).
    destruct (vtt_loop _ _ _ _) as [a c'].
    rewrite IH. simpl. rewrite <- app_assoc. reflexivity.
Qed.

(** ** Lemmas on the translation pipeline *)

Lemma str_eqb_refl a : str_eqb a a = true.
Proof. unfold str_eqb; destruct (list_eq_dec ascii_dec a a); congruence. Qed.

Lemma convertCuesToVTT_nonempty cs : is_emptyb (convertCuesToVTT cs) = false.
Proof. reflexivity. Qed.

Lemma promise_all_throw {A} (os : list (outcome A)) e :
  In (Throw e) os -> exists e', promise_all os = Throw e'.
Proof.
  induction os as [|o os IH]; intros Hin; [destruct Hin|].
  destruct Hin as [->|Hin]; [exists e; reflexivity|].
  destruct o as [a|e0]; simpl; [|exists e0; reflexivity].
  destruct (IH Hin) as [e' ->]. exists e'; reflexivity.
Qed.

Lemma nth_run_batches g s t bs : forall k i b,
  nth_error bs i = Some b ->
  nth_error (run_batches g s t k bs) i
  = Some (handle_response (map text b) (g (k + i) (make_prompt s t (map text b)))).
Proof.
  induction bs as [|b0 bs IH]; intros k i b H; [destruct i; discriminate|].
  destruct i as [|i]; simpl in H |- *.
  - injection H as ->. rewrite Nat.add_0_r. reflexivity.
  - rewrite (IH (S k) i b H), <- plus_n_Sm. reflexivity.
Qed.

Lemma promise_all_run_batches g s t bs : forall k,
  (forall i b, nth_error bs i = Some b ->
     handle_response (map text b) (g (k + i) (make_prompt s t (map text b)))
     = Ret (map text b)) ->
  promise_all (run_batches g s t k bs) = Ret (map (map text) bs).
Proof.
  induction bs as [|b bs IH]; intros k H; [reflexivity|].
  simpl. pose proof (H 0 b eq_refl) as H0. rewrite Nat.add_0_r in H0.
  rewrite H0, IH; [reflexivity|].
  intros i b' Hb. rewrite <- (H (S i) b' Hb), <- plus_n_Sm. reflexivity.
Qed.

Lemma firstn_add_split {A} a b (l : list A) :
  firstn (a + b) l = firstn a l ++ firstn b (skipn a l).
Proof.
  revert l; induction a as [|a IH]; intros l; [reflexivity|].
  destruct l as [|x l]; simpl; [destruct b; reflexivity|].
  rewrite IH. reflexivity.
Qed.

Lemma concat_batches_from n : forall s (l : list cue),
  concat (map (fun k => firstn batchSize (skipn (k * batchSize) l)) (seq s n))
  = firstn (n * batchSize) (skipn (s * batchSize) l).
Proof.
  induction n as [|n IH]; intros s l; [reflexivity|].
  cbn [seq map concat]. rewrite IH.
  replace (S n * batchSize) with (batchSize + n * batchSize) by lia.
  rewrite firstn_add_split, skipn_skipn.
  replace (batchSize + s * batchSize) with (S s * batchSize) by lia.
  reflexivity.
Qed.

Lemma concat_make_batches cues : concat (make_batches cues) = cues.
Proof.
  unfold make_batches. rewrite concat_batches_from. simpl skipn.
  apply firstn_all2.
  pose proof (Nat.div_mod_eq (length cues + batchSize - 1) batchSize) as Hd.
  pose proof (Nat.mod_upper_bound (length cues + batchSize - 1) batchSize) as Hm.
  unfold batchSize in *. lia.
Qed.

Lemma make_batches_nil : make_batches [] = [].
Proof. reflexivity. Qed.

Lemma apply_translations_shape cues : forall ts,
  length (apply_translations cues ts) = length cues
  /\ Forall2 (fun c c' => start c' = start c /\ end_ c' = end_ c)
       cues (apply_translations cues ts).
Proof.
  induction cues as [|c cs IH]; intros ts; destruct ts as [|t ts]; simpl.
  - split; [reflexivity|constructor].
  - split; [reflexivity|constructor].
  - split; [reflexivity|].
    constructor; [split; reflexivity|].
    clear IH. induction cs as [|c' cs' IHc]; constructor;
      [split; reflexivity|exact IHc].
  - destruct (IH ts) as [Hl Hf]. split; [rewrite Hl; reflexivity|].
    constructor; [split; reflexivity|exact Hf].
Qed.

Lemma apply_translations_own cues :
  apply_translations cues (map text cues)
  = map (fun c => with_text c (trim (text c))) cues.
Proof. induction cues as [|c cs IH]; [reflexivity|]. simpl. rewrite IH. reflexivity. Qed.

Lemma reconcile_mismatch texts t :
  length (split_str seg_sep t) <> length texts ->
  reconcile texts t
  = if length texts <=? length (simple_split t)
    then firstn (length texts) (simple_split t) else texts.
Proof.
  intros H. unfold reconcile.
  apply Nat.eqb_neq in H. rewrite H. reflexivity.
Qed.

(** The three ways the [try] block ends. *)
Lemma translate_body_cases P g c s t key st r st' :
  translate_body P g c s t key st = (r, st') ->
  let cues := parseSubtitleContent P c (detect_format c) in
  let st1 := {| cache := cache st; now := now st;
                calls := calls st + length (make_batches cues) |} in
  (cues = [] /\ r = Ret c /\ st' = st)
  \/ (cues <> [] /\ (exists e, promise_all (run_batches g s t (calls st)
                                  (make_batches cues)) = Throw e)
      /\ (exists e, r = Throw e) /\ st' = st1)
  \/ (cues <> [] /\ exists tbs,
        promise_all (run_batches g s t (calls st) (make_batches cues)) = Ret tbs
        /\ r = Ret (convertCuesToVTT (apply_translations cues (concat tbs)))
        /\ st' = cache_set key
                   (convertCuesToVTT (apply_translations cues (concat tbs))) st1).
Proof.
  intros H. cbv zeta. unfold translate_body in H. cbv zeta in H.
  destruct (parseSubtitleContent P c (detect_format c)) as [|c0 cs] eqn:Ec.
  - left. injection H as <- <-. auto.
  - right. destruct (promise_all _) as [tbs|e] eqn:Ep.
    + right. split; [discriminate|]. exists tbs.
      injection H as <- <-. auto.
    + left. injection H as <- <-. split; [discriminate|].
      split; [exists e; reflexivity|]. split; [exists e; reflexivity|reflexivity].
Qed.

Lemma translateSubtitle_miss P md5 g c s t st :
  cache_hit (cacheKey md5 c s t) st = None ->
  translateSubtitle P md5 g c s t st
  = match translate_body P g c s t (cacheKey md5 c s t) st with
    | (Throw _, st') => (Ret c, st')
    | (Ret x, st') => (Ret x, st')
    end.
Proof. intros H. unfold translateSubtitle. rewrite H. reflexivity. Qed.

Lemma cache_hit_fresh key v e cs now2 k :
  is_emptyb v = false -> (now2 <= e)%Z ->
  cache_hit key {| cache := (key, (v, e)) :: cs; now := now2; calls := k |} = Some v.
Proof.
  intros Hv Hn. unfold cache_hit, cache_get. simpl.
  rewrite str_eqb_refl.
  replace (e <? now2)%Z with false by (symmetry; apply Z.ltb_ge; lia).
  rewrite Hv. reflexivity.
Qed.

Lemma prefixb_app p r : prefixb p (p ++ r) = true.
Proof. induction p as [|a p IH]; [reflexivity|]. simpl. rewrite Ascii.eqb_refl, IH. reflexivity. Qed.

Lemma loop_header rest acc cur :
  vtt_loop (lit "WEBVTT" :: rest) acc cur false = vtt_loop rest acc cur false.
Proof. reflexivity. Qed.

Lemma split_convertCuesToVTT cues :
  split_on nl (convertCuesToVTT cues)
  = lit "WEBVTT" :: [] :: split_on nl (vtt_body 0 cues).
Proof.
  unfold convertCuesToVTT.
  change (lit "WEBVTT" ++ [nl; nl] ++ vtt_body 0 cues)
    with (lit "WEBVTT" ++ nl :: ([] ++ nl :: vtt_body 0 cues)).
  rewrite !split_on_app. reflexivity.
Qed.

(** The shape of a freshly computed result (cache miss). *)
Lemma translateSubtitle_miss_result P md5 g c s t st out st' :
  cache_hit (cacheKey md5 c s t) st = None ->
  translateSubtitle P md5 g c s t st = (Ret out, st') ->
  out = c
  \/ exists tbs, out = convertCuesToVTT
                   (apply_translations (parseSubtitleContent P c (detect_format c))
                      (concat tbs)).
Proof.
  intros Hm H. rewrite translateSubtitle_miss in H by exact Hm.
  destruct (translate_body P g c s t (cacheKey md5 c s t) st) as [r st1] eqn:Eb.
  apply translate_body_cases in Eb.
  destruct Eb as [[_ [-> _]]|[[_ [_ [[e ->] _]]]|[_ [tbs [_ [-> _]]]]]];
    injection H as <- _; [left; reflexivity|left; reflexivity|].
  right. exists tbs. reflexivity.
Qed.

(** * The claims *)

(** C1: for every string content and language codes [translateSubtitle]
    returns a string and never throws; when the [try] block after the cache
    lookup throws, the result is the original content. *)
Theorem translateSubtitle_never_throws P md5 g content sourceLang targetLang st :
  (exists out, fst (translateSubtitle P md5 g content sourceLang targetLang st) = Ret out)
  /\ (cache_hit (cacheKey md5 content sourceLang targetLang) st = None ->
      forall e st',
      translate_body P g content sourceLang targetLang
        (cacheKey md5 content sourceLang targetLang) st = (Throw e, st') ->
      translateSubtitle P md5 g content sourceLang targetLang st = (Ret content, st')).
Proof.
  split.
  - unfold translateSubtitle.
    destruct (cache_hit _ st); [eexists; reflexivity|].
    destruct (translate_body _ _ _ _ _ _ _) as [[x|e] st']; eexists; reflexivity.
  - intros Hm e st' Hb. rewrite translateSubtitle_miss by exact Hm.
    rewrite Hb. reflexivity.
Qed.

Lemma translateSubtitle_never_throws_witness :
  cache_hit (cacheKey identity_hash spec_example (lit "en") (lit "el")) empty_state = None
  /\ translate_body no_srt (fun _ _ => HttpFailure) spec_example (lit "en") (lit "el")
       (cacheKey identity_hash spec_example (lit "en") (lit "el")) empty_state
     = (Throw AxiosError, mk_st [] 0 1)
  /\ translateSubtitle no_srt identity_hash (fun _ _ => HttpFailure) spec_example
       (lit "en") (lit "el") empty_state = (Ret spec_example, mk_st [] 0 1).
Proof.
  assert (H1 : cache_hit (cacheKey identity_hash spec_example (lit "en") (lit "el"))
                 empty_state = None) by reflexivity.
  assert (H2 : translate_body no_srt (fun _ _ => HttpFailure) spec_example (lit "en")
                 (lit "el") (cacheKey identity_hash spec_example (lit "en") (lit "el"))
                 empty_state = (Throw AxiosError, mk_st [] 0 1))
    by (vm_compute; reflexivity).
  exact (conj H1 (conj H2 (proj2 (translateSubtitle_never_throws no_srt identity_hash
    (fun _ _ => HttpFailure) spec_example (lit "en") (lit "el") empty_state)
    H1 AxiosError (mk_st [] 0 1) H2))).
Defined.

(** C2 (counterexample): a cue whose text is the number [42] does not
    survive the round trip: the parser takes the line for a cue number. *)
Lemma vtt_roundtrip_numeric_text :
  let cs := [mk_cue (lit "00:00:01.000") (lit "00:00:05.000") (lit "42")] in
  parseSubtitleContent no_srt (convertCuesToVTT cs) Vtt
  = [mk_cue (lit "00:00:01.000") (lit "00:00:05.000") []]
  /\ parseSubtitleContent no_srt (convertCuesToVTT cs) Vtt <> cs.
Proof.
  split; [vm_compute; reflexivity|].
  intros H. vm_compute in H. discriminate H.
Qed.

(** C2 (amended): decoding the VTT encoding of cues gives the cues back
    when every timestamp has one of the two shapes of the timing regex and
    every line of every text is non-empty, unchanged by [trim], not a
    number, not [WEBVTT], not the start of a [NOTE] block and contains no
    timing arrow. *)
Theorem vtt_roundtrip P cues :
  forallb roundtrip_cue cues = true ->
  parseSubtitleContent P (convertCuesToVTT cues) Vtt = cues.
Proof.
  intros H. unfold parseSubtitleContent.
  rewrite split_convertCuesToVTT, loop_header, loop_blank.
  pose proof (loop_body cues 0 [] None H) as Hb.
  destruct (vtt_loop _ _ _ _) as [a c]. exact Hb.
Qed.

Lemma vtt_roundtrip_witness :
  forallb roundtrip_cue [hello_cue; mk_cue (lit "00:02.500") (lit "01:00:00.000")
                                    (lit "Two" ++ [nl] ++ lit "lines")] = true
  /\ parseSubtitleContent no_srt
       (convertCuesToVTT [hello_cue; mk_cue (lit "00:02.500") (lit "01:00:00.000")
                                      (lit "Two" ++ [nl] ++ lit "lines")]) Vtt
     = [hello_cue; mk_cue (lit "00:02.500") (lit "01:00:00.000")
                     (lit "Two" ++ [nl] ++ lit "lines")].
Proof.
  assert (H : forallb roundtrip_cue [hello_cue; mk_cue (lit "00:02.500")
                (lit "01:00:00.000") (lit "Two" ++ [nl] ++ lit "lines")] = true)
    by (vm_compute; reflexivity).
  exact (conj H (vtt_roundtrip no_srt _ H)).
Defined.

(** C3 (counterexample): eleven cues make two batches; the first call
    succeeds and the second fails with a network error.  The result is not
    the document with the first ten cues translated: [Promise.all] rejects,
    and the [catch] returns the input unchanged. *)
Lemma translateSubtitle_one_batch_fails :
  fst (translateSubtitle no_srt identity_hash first_batch_only (sample_vtt 11)
         (lit "en") (lit "el") empty_state) = Ret (sample_vtt 11)
  /\ fst (translateSubtitle no_srt identity_hash first_batch_only (sample_vtt 11)
            (lit "en") (lit "el") empty_state)
     <> Ret (convertCuesToVTT (repeat geia_cue 10 ++ [hello_cue])).
Proof.
  split; [vm_compute; reflexivity|].
  intros H. vm_compute in H. discriminate H.
Qed.

(** C3 (amended): if the call for any one batch fails hard (its response
    has no usable text), the whole translation falls back: the original
    content is returned, the cache is left as it was, and one model call was
    issued per batch. *)
Theorem translateSubtitle_hard_failure P md5 g content s t st i b e :
  cache_hit (cacheKey md5 content s t) st = None ->
  nth_error (make_batches (parseSubtitleContent P content (detect_format content))) i
    = Some b ->
  response_text (g (calls st + i) (make_prompt s t (map text b))) = Throw e ->
  translateSubtitle P md5 g content s t st
  = (Ret content,
     {| cache := cache st; now := now st;
        calls := calls st
                 + length (make_batches
                             (parseSubtitleContent P content (detect_format content))) |}).
Proof.
  intros Hm Hn Hr. rewrite translateSubtitle_miss by exact Hm.
  destruct (translate_body P g content s t (cacheKey md5 content s t) st)
    as [r st1] eqn:Eb.
  apply translate_body_cases in Eb. cbv zeta in Eb.
  destruct Eb as [[Hc _]|[[_ [_ [[e' ->] ->]]]|[_ [tbs [Hp _]]]]].
  - rewrite Hc, make_batches_nil in Hn. destruct i; discriminate.
  - reflexivity.
  - exfalso.
    pose proof (nth_run_batches g s t _ (calls st) i b Hn) as Hnth.
    apply nth_error_In in Hnth. unfold handle_response in Hnth. rewrite Hr in Hnth.
    destruct (promise_all_throw _ _ Hnth) as [e' He']. rewrite He' in Hp. discriminate.
Qed.

Lemma translateSubtitle_hard_failure_witness :
  translateSubtitle no_srt identity_hash failing_model spec_example
    (lit "en") (lit "el") empty_state = (Ret spec_example, mk_st [] 0 1).
Proof.
  assert (H1 : cache_hit (cacheKey identity_hash spec_example (lit "en") (lit "el"))
                 empty_state = None) by reflexivity.
  assert (H2 : nth_error (make_batches (parseSubtitleContent no_srt spec_example
                 (detect_format spec_example))) 0 = Some [hello_cue])
    by (vm_compute; reflexivity).
  assert (H3 : response_text (failing_model (calls empty_state + 0)
                 (make_prompt (lit "en") (lit "el") (map text [hello_cue])))
               = Throw AxiosError) by reflexivity.
  rewrite (translateSubtitle_hard_failure no_srt identity_hash failing_model
             spec_example (lit "en") (lit "el") empty_state 0 [hello_cue] AxiosError
             H1 H2 H3).
  vm_compute. reflexivity.
Defined.

(** C4: when the response splits on [\n---\n] into a number of segments
    other than the batch size, the batch's translations are the first
    [length texts] non-blank lines of the response if there are enough of
    them, and the original texts otherwise. *)
Theorem handle_response_mismatch textsToTranslate r translatedText :
  response_text r = Ret translatedText ->
  length (split_str seg_sep translatedText) <> length textsToTranslate ->
  handle_response textsToTranslate r
  = Ret (if length textsToTranslate <=? length (simple_split translatedText)
         then firstn (length textsToTranslate) (simple_split translatedText)
         else textsToTranslate).
Proof.
  intros H1 H2. unfold handle_response.
  rewrite H1, reconcile_mismatch by exact H2. reflexivity.
Qed.

Lemma handle_response_mismatch_witness :
  handle_response [lit "a"; lit "b"]
    (gemini_reply (lit "x" ++ [nl; nl] ++ lit "y" ++ [nl] ++ lit "z"))
  = Ret [lit "x"; lit "y"].
Proof.
  assert (H1 : response_text (gemini_reply (lit "x" ++ [nl; nl] ++ lit "y" ++ [nl] ++ lit "z"))
               = Ret (lit "x" ++ [nl; nl] ++ lit "y" ++ [nl] ++ lit "z")) by reflexivity.
  assert (H2 : length (split_str seg_sep (lit "x" ++ [nl; nl] ++ lit "y" ++ [nl] ++ lit "z"))
               <> length [lit "a"; lit "b"]) by (vm_compute; discriminate).
  rewrite (handle_response_mismatch _ _ _ H1 H2). vm_compute. reflexivity.
Defined.

(** C5: on a cache miss, for content that decodes to at least one cue, the
    result is either the original content or the VTT encoding of a cue list
    of the same length whose cues keep the source cues' start and end
    timestamps in order. *)
Theorem translateSubtitle_preserves_cues P md5 g content s t st out st' :
  cache_hit (cacheKey md5 content s t) st = None ->
  parseSubtitleContent P content (detect_format content) <> [] ->
  translateSubtitle P md5 g content s t st = (Ret out, st') ->
  out = content
  \/ exists cues',
       out = convertCuesToVTT cues'
       /\ length cues' = length (parseSubtitleContent P content (detect_format content))
       /\ Forall2 (fun c c' => start c' = start c /\ end_ c' = end_ c)
            (parseSubtitleContent P content (detect_format content)) cues'.
Proof.
  intros Hm _ H.
  destruct (translateSubtitle_miss_result P md5 g content s t st out st' Hm H)
    as [->|[tbs ->]]; [left; reflexivity|right].
  eexists; split; [reflexivity|]. apply apply_translations_shape.
Qed.

Lemma translateSubtitle_preserves_cues_witness :
  exists cues',
    convertCuesToVTT [geia_cue] = convertCuesToVTT cues'
    /\ length cues' = 1
    /\ Forall2 (fun c c' => start c' = start c /\ end_ c' = end_ c) [hello_cue] cues'.
Proof.
  assert (H1 : cache_hit (cacheKey identity_hash spec_example (lit "en") (lit "el"))
                 empty_state = None) by reflexivity.
  assert (H2 : parseSubtitleContent no_srt spec_example (detect_format spec_example) <> [])
    by (vm_compute; discriminate).
  assert (H3 : translateSubtitle no_srt identity_hash greek_model spec_example
                 (lit "en") (lit "el") empty_state
               = (Ret (convertCuesToVTT [geia_cue]),
                  cache_set (cacheKey identity_hash spec_example (lit "en") (lit "el"))
                    (convertCuesToVTT [geia_cue]) (mk_st [] 0 1)))
    by (vm_compute; reflexivity).
  destruct (translateSubtitle_preserves_cues _ _ _ _ _ _ _ _ _ H1 H2 H3) as [H|H].
  - exfalso. vm_compute in H. discriminate H.
  - exact H.
Defined.

(** C6 (counterexample): an SRT document (detected as [srt]) comes out as
    a WebVTT document, detected as [vtt]. *)
Lemma translateSubtitle_srt_gives_vtt :
  detect_format sample_srt = Srt
  /\ fst (translateSubtitle srt_one_cue identity_hash greek_model sample_srt
            (lit "en") (lit "el") empty_state)
     = Ret (convertCuesToVTT [mk_cue (lit "00:00:01,000") (lit "00:00:05,000") (lit "Geia")])
  /\ detect_format (convertCuesToVTT
       [mk_cue (lit "00:00:01,000") (lit "00:00:05,000") (lit "Geia")]) = Vtt.
Proof. split; [|split]; vm_compute; reflexivity. Qed.

(** C6 (amended): on a cache miss the result is either the original
    content or a document written by [convertCuesToVTT], which begins with
    the [WEBVTT] header whatever the input format was. *)
Theorem translateSubtitle_output_vtt P md5 g content s t st out st' :
  cache_hit (cacheKey md5 content s t) st = None ->
  translateSubtitle P md5 g content s t st = (Ret out, st') ->
  out = content
  \/ (exists cues', out = convertCuesToVTT cues') /\ prefixb (lit "WEBVTT") out = true.
Proof.
  intros Hm H.
  destruct (translateSubtitle_miss_result P md5 g content s t st out st' Hm H)
    as [->|[tbs ->]]; [left; reflexivity|right].
  split; [eexists; reflexivity|]. unfold convertCuesToVTT. apply prefixb_app.
Qed.

Lemma translateSubtitle_output_vtt_witness :
  prefixb (lit "WEBVTT")
    (convertCuesToVTT [mk_cue (lit "00:00:01,000") (lit "00:00:05,000") (lit "Geia")])
  = true.
Proof.
  assert (H1 : cache_hit (cacheKey identity_hash sample_srt (lit "en") (lit "el"))
                 empty_state = None) by reflexivity.
  assert (H2 : translateSubtitle srt_one_cue identity_hash greek_model sample_srt
                 (lit "en") (lit "el") empty_state
               = (Ret (convertCuesToVTT
                         [mk_cue (lit "00:00:01,000") (lit "00:00:05,000") (lit "Geia")]),
                  cache_set (cacheKey identity_hash sample_srt (lit "en") (lit "el"))
                    (convertCuesToVTT
                       [mk_cue (lit "00:00:01,000") (lit "00:00:05,000") (lit "Geia")])
                    (mk_st [] 0 1)))
    by (vm_compute; reflexivity).
  destruct (translateSubtitle_output_vtt _ _ _ _ _ _ _ _ _ H1 H2) as [H|[_ H]].
  - exfalso. vm_compute in H. discriminate H.
  - exact H.
Defined.

(** C7 (counterexample): when the model keeps failing, nothing is cached
    and two successive identical calls issue two model requests. *)
Lemma translateSubtitle_twice_two_calls :
  calls (snd (translateSubtitle no_srt identity_hash failing_model spec_example
                (lit "en") (lit "el")
                (snd (translateSubtitle no_srt identity_hash failing_model spec_example
                        (lit "en") (lit "el") empty_state)))) = 2.
Proof. vm_compute. reflexivity. Qed.

(** C7 (amended): once a call has written the cache, an identical call made
    before the entry expires returns the same document from the cache,
    leaving the state (and so the number of model calls) unchanged. *)
Theorem translateSubtitle_cached P md5 g content s t st out st1 now2 :
  translateSubtitle P md5 g content s t st = (Ret out, st1) ->
  cache st1 <> cache st ->
  (now2 <= now st1 + ttl_ms)%Z ->
  translateSubtitle P md5 g content s t (mk_st (cache st1) now2 (calls st1))
  = (Ret out, mk_st (cache st1) now2 (calls st1)).
Proof.
  intros H Hc Hn.
  destruct (cache_hit (cacheKey md5 content s t) st) as [v|] eqn:Eh.
  - unfold translateSubtitle in H. cbv zeta in H. rewrite Eh in H.
    injection H as _ <-. contradiction.
  - rewrite translateSubtitle_miss in H by exact Eh.
    destruct (translate_body P g content s t (cacheKey md5 content s t) st)
      as [r st2] eqn:Eb.
    apply translate_body_cases in Eb. cbv zeta in Eb.
    destruct Eb as [[_ [-> ->]]|[[_ [_ [[e ->] ->]]]|[_ [tbs [_ [-> ->]]]]]].
    + injection H as _ <-. contradiction.
    + injection H as _ <-. contradiction.
    + injection H as <- <-.
      unfold translateSubtitle, cache_set in *. cbv zeta. simpl cache; simpl calls.
      rewrite (cache_hit_fresh _ _ _ _ _ _ (convertCuesToVTT_nonempty _) Hn).
      reflexivity.
Qed.

Lemma translateSubtitle_cached_witness :
  translateSubtitle no_srt identity_hash greek_model spec_example (lit "en") (lit "el")
    (mk_st [(cacheKey identity_hash spec_example (lit "en") (lit "el"),
             (convertCuesToVTT [geia_cue], ttl_ms))] 1000 1)
  = (Ret (convertCuesToVTT [geia_cue]),
     mk_st [(cacheKey identity_hash spec_example (lit "en") (lit "el"),
             (convertCuesToVTT [geia_cue], ttl_ms))] 1000 1).
Proof.
  assert (H1 : translateSubtitle no_srt identity_hash greek_model spec_example
                 (lit "en") (lit "el") empty_state
               = (Ret (convertCuesToVTT [geia_cue]),
                  mk_st [(cacheKey identity_hash spec_example (lit "en") (lit "el"),
                          (convertCuesToVTT [geia_cue], ttl_ms))] 0 1))
    by (vm_compute; reflexivity).
  assert (H2 : cache (mk_st [(cacheKey identity_hash spec_example (lit "en") (lit "el"),
                              (convertCuesToVTT [geia_cue], ttl_ms))] 0 1)
               <> cache empty_state) by discriminate.
  assert (H3 : (1000 <= now (mk_st [(cacheKey identity_hash spec_example (lit "en") (lit "el"),
                                     (convertCuesToVTT [geia_cue], ttl_ms))] 0 1) + ttl_ms)%Z)
    by (unfold ttl_ms; simpl; lia).
  exact (translateSubtitle_cached no_srt identity_hash greek_model spec_example
           (lit "en") (lit "el") empty_state _ _ 1000 H1 H2 H3).
Defined.

(** C8: when the content decodes to no cue, the call leaves the cache and
    the model-call count unchanged, and on a cache miss it returns the
    original content with the state untouched. *)
Theorem translateSubtitle_no_cues P md5 g content s t st :
  parseSubtitleContent P content (detect_format content) = [] ->
  cache (snd (translateSubtitle P md5 g content s t st)) = cache st
  /\ calls (snd (translateSubtitle P md5 g content s t st)) = calls st
  /\ (cache_hit (cacheKey md5 content s t) st = None ->
      translateSubtitle P md5 g content s t st = (Ret content, st)).
Proof.
  intros Hc. unfold translateSubtitle. cbv zeta.
  destruct (cache_hit (cacheKey md5 content s t) st) as [v|] eqn:Eh.
  - split; [reflexivity|split; [reflexivity|discriminate]].
  - destruct (translate_body P g content s t (cacheKey md5 content s t) st)
      as [r st'] eqn:Eb.
    apply translate_body_cases in Eb. cbv zeta in Eb.
    destruct Eb as [[_ [-> ->]]|[[Hn _]|[Hn _]]]; [|contradiction|contradiction].
    auto.
Qed.

Lemma translateSubtitle_no_cues_witness :
  cache (snd (translateSubtitle no_srt identity_hash greek_model (lit "garbage")
                (lit "en") (lit "el") empty_state)) = []
  /\ calls (snd (translateSubtitle no_srt identity_hash greek_model (lit "garbage")
                   (lit "en") (lit "el") empty_state)) = 0
  /\ (cache_hit (cacheKey identity_hash (lit "garbage") (lit "en") (lit "el")) empty_state
        = None ->
      translateSubtitle no_srt identity_hash greek_model (lit "garbage")
        (lit "en") (lit "el") empty_state = (Ret (lit "garbage"), empty_state)).
Proof.
  assert (H : parseSubtitleContent no_srt (lit "garbage") (detect_format (lit "garbage")) = [])
    by (vm_compute; reflexivity).
  exact (translateSubtitle_no_cues no_srt identity_hash greek_model (lit "garbage")
           (lit "en") (lit "el") empty_state H).
Defined.

(** C9 (code bug): [00:00:01,001] parses to the double nearest 1.001,
    whose fractional part times 1000 is just below 1; [Math.floor] makes it
    0, so formatting prints [00:00:01,000] and parsing that again gives 1,
    not the value first parsed. *)
Theorem srt_timestamp_roundtrip_loses_ms :
  formatSrtTimestamp (parseSrtTimestamp (lit "00:00:01,001")) = lit "00:00:01,000"
  /\ parseSrtTimestamp (formatSrtTimestamp (parseSrtTimestamp (lit "00:00:01,001")))
     <> parseSrtTimestamp (lit "00:00:01,001").
Proof.
  split; [vm_compute; reflexivity|].
  intros H. vm_compute in H. discriminate H.
Qed.

(** The batch callback returns the batch's own texts when the response
    has the wrong number of separated segments and too few non-blank
    lines. *)
Lemma handle_response_fallback b r tt :
  response_text r = Ret tt ->
  length (split_str seg_sep tt) <> length b ->
  length (simple_split tt) < length b ->
  handle_response (map text b) r = Ret (map text b).
Proof.
  intros Hr H1 H2. unfold handle_response. rewrite Hr.
  rewrite reconcile_mismatch by (rewrite length_map; exact H1).
  rewrite length_map.
  destruct (Nat.leb_spec (length b) (length (simple_split tt))); [lia|reflexivity].
Qed.

(** C10: when every batch takes the mismatch fallback (wrong segment count,
    too few non-blank lines), the call returns the re-encoded untranslated
    cues and caches them under the key of (content, sourceLang, targetLang)
    with expiry [now + 24h]; until then a later identical call, whatever
    the model and call count, returns the cached document and changes
    nothing. *)
Theorem translateSubtitle_caches_fallback P md5 g content s t st :
  cache_hit (cacheKey md5 content s t) st = None ->
  parseSubtitleContent P content (detect_format content) <> [] ->
  (forall i b,
     nth_error (make_batches (parseSubtitleContent P content (detect_format content))) i
       = Some b ->
     exists tt, response_text (g (calls st + i) (make_prompt s t (map text b))) = Ret tt
       /\ length (split_str seg_sep tt) <> length b
       /\ length (simple_split tt) < length b) ->
  let cues := parseSubtitleContent P content (detect_format content) in
  let out := convertCuesToVTT (map (fun c => with_text c (trim (text c))) cues) in
  translateSubtitle P md5 g content s t st
  = (Ret out,
     mk_st ((cacheKey md5 content s t, (out, (now st + ttl_ms)%Z)) :: cache st)
           (now st) (calls st + length (make_batches cues)))
  /\ forall now2 g' k, (now2 <= now st + ttl_ms)%Z ->
     translateSubtitle P md5 g' content s t
       (mk_st ((cacheKey md5 content s t, (out, (now st + ttl_ms)%Z)) :: cache st) now2 k)
     = (Ret out,
        mk_st ((cacheKey md5 content s t, (out, (now st + ttl_ms)%Z)) :: cache st) now2 k).
Proof.
  intros Hm Hne Hb. cbv zeta. split.
  - assert (Hp : promise_all (run_batches g s t (calls st)
                   (make_batches (parseSubtitleContent P content (detect_format content))))
                 = Ret (map (map text)
                   (make_batches (parseSubtitleContent P content (detect_format content))))).
    { apply promise_all_run_batches. intros i b Hi.
      destruct (Hb i b Hi) as [tt [Hr [H1 H2]]].
      exact (handle_response_fallback b _ tt Hr H1 H2). }
    rewrite translateSubtitle_miss by exact Hm.
    destruct (translate_body P g content s t (cacheKey md5 content s t) st)
      as [r st'] eqn:Eb.
    apply translate_body_cases in Eb. cbv zeta in Eb.
    destruct Eb as [[Hc _]|[[_ [[e He] _]]|[_ [tbs [Htbs [-> ->]]]]]].
    + contradiction.
    + rewrite Hp in He. discriminate.
    + rewrite Hp in Htbs. injection Htbs as <-.
      rewrite <- concat_map, concat_make_batches, apply_translations_own.
      reflexivity.
  - intros now2 g' k Hn. unfold translateSubtitle. cbv zeta.
    rewrite (cache_hit_fresh _ _ _ _ _ _ (convertCuesToVTT_nonempty _) Hn).
    reflexivity.
Qed.

Lemma translateSubtitle_caches_fallback_witness :
  translateSubtitle no_srt identity_hash short_model (sample_vtt 2)
    (lit "en") (lit "el") empty_state
  = (Ret (sample_vtt 2),
     mk_st [(cacheKey identity_hash (sample_vtt 2) (lit "en") (lit "el"),
             (sample_vtt 2, ttl_ms))] 0 1)
  /\ translateSubtitle no_srt identity_hash failing_model (sample_vtt 2)
       (lit "en") (lit "el")
       (mk_st [(cacheKey identity_hash (sample_vtt 2) (lit "en") (lit "el"),
                (sample_vtt 2, ttl_ms))] 5000 1)
     = (Ret (sample_vtt 2),
        mk_st [(cacheKey identity_hash (sample_vtt 2) (lit "en") (lit "el"),
                (sample_vtt 2, ttl_ms))] 5000 1).
Proof.
  assert (H1 : cache_hit (cacheKey identity_hash (sample_vtt 2) (lit "en") (lit "el"))
                 empty_state = None) by reflexivity.
  assert (H2 : parseSubtitleContent no_srt (sample_vtt 2) (detect_format (sample_vtt 2))
               <> []) by (vm_compute; discriminate).
  assert (H3 : forall i b,
     nth_error (make_batches (parseSubtitleContent no_srt (sample_vtt 2)
                                (detect_format (sample_vtt 2)))) i = Some b ->
     exists tt, response_text (short_model (calls empty_state + i)
                               (make_prompt (lit "en") (lit "el") (map text b))) = Ret tt
       /\ length (split_str seg_sep tt) <> length b
       /\ length (simple_split tt) < length b).
  { intros i b Hi.
    assert (E : make_batches (parseSubtitleContent no_srt (sample_vtt 2)
                                (detect_format (sample_vtt 2)))
                = [[hello_cue; hello_cue]]) by (vm_compute; reflexivity).
    rewrite E in Hi. destruct i as [|[|i]]; try discriminate.
    injection Hi as <-. exists (lit "x").
    split; [reflexivity|]. split; [vm_compute; discriminate|].
    apply Nat.ltb_lt. vm_compute. reflexivity. }
  destruct (translateSubtitle_caches_fallback no_srt identity_hash short_model
              (sample_vtt 2) (lit "en") (lit "el") empty_state H1 H2 H3) as [A B].
  split.
  - rewrite A. vm_compute. reflexivity.
  - assert (Hn : (5000 <= now empty_state + ttl_ms)%Z) by (unfold ttl_ms; simpl; lia).
    pose proof (B 5000%Z failing_model 1 Hn) as B'.
    exact B'.
Defined.


(** * Further properties of the code *)

(** ** Language codes *)

Lemma lower_char_idem c : lower_char (lower_char c) = lower_char c.
Proof. destruct c as [[] [] [] [] [] [] [] []]; reflexivity. Qed.

Lemma toLowerCase_idem l : toLowerCase (toLowerCase l) = toLowerCase l.
Proof.
  unfold toLowerCase. rewrite map_map.
  apply map_ext. apply lower_char_idem.
Qed.

Lemma str_eqb_true a b : str_eqb a b = true -> a = b.
Proof. unfold str_eqb. destruct (list_eq_dec ascii_dec a b); congruence. Qed.

Lemma input_iso1_key lang k :
  input_iso1 lang = Some k -> In k (map fst languageMappings).
Proof.
  intros H. unfold input_iso1 in H.
  destruct ((length lang =? 2)
     && match mapping_get (toLowerCase lang) with Some _ => true | None => false end) eqn:E1.
  - injection H as <-. apply andb_prop in E1 as [_ E1].
    unfold mapping_get in E1.
    destruct (find (fun kv => str_eqb (fst kv) (toLowerCase lang)) languageMappings)
      as [[k' v]|] eqn:Ef; [|discriminate].
    apply find_some in Ef as [Hin Heq]. apply str_eqb_true in Heq. cbn [fst] in Heq.
    subst k'. apply in_map_iff. exists (toLowerCase lang, v). split; [reflexivity|exact Hin].
  - unfold find_iso1 in H.
    destruct (length lang =? 3).
    + destruct (find _ languageMappings) as [[k' v]|] eqn:Ef; [|discriminate].
      injection H as <-. apply find_some in Ef as [Hin _].
      apply in_map_iff. exists (k', v). split; [reflexivity|exact Hin].
    + destruct (find _ languageMappings) as [[k' v]|] eqn:Ef; [|discriminate].
      injection H as <-. apply find_some in Ef as [Hin _].
      apply in_map_iff. exists (k', v). split; [reflexivity|exact Hin].
Qed.

(** Every key [k] of the table, with its entry [(iso2, name)]: [k], [iso2]
    and [name] are all recognised as the language [k]. *)
Lemma table_consistent_true :
  forallb (fun k =>
    match mapping_get k with
    | Some (a, b) =>
        match input_iso1 k, input_iso1 a, input_iso1 b with
        | Some k1, Some k2, Some k3 => str_eqb k1 k && str_eqb k2 k && str_eqb k3 k
        | _, _, _ => false
        end
    | None => false
    end) (map fst languageMappings) = true.
Proof. vm_compute. reflexivity. Qed.

Lemma key_entry k :
  In k (map fst languageMappings) ->
  exists a b, mapping_get k = Some (a, b)
    /\ input_iso1 k = Some k /\ input_iso1 a = Some k /\ input_iso1 b = Some k.
Proof.
  intros Hin. pose proof table_consistent_true as H.
  rewrite forallb_forall in H.
  specialize (H k Hin).
  destruct (mapping_get k) as [[a b]|] eqn:Eg; [|discriminate].
  destruct (input_iso1 k) as [k1|] eqn:E1, (input_iso1 a) as [k2|] eqn:E2,
    (input_iso1 b) as [k3|] eqn:E3; try discriminate.
  apply andb_prop in H as [H H3]. apply andb_prop in H as [H1 H2].
  apply str_eqb_true in H1, H2, H3. subst. exists a, b. repeat split; assumption.
Qed.

Lemma convert_same_iso1 x y fmt :
  input_iso1 x = input_iso1 y -> input_iso1 x <> None ->
  convertLanguageCode x fmt = convertLanguageCode y fmt.
Proof.
  unfold convertLanguageCode. intros H Hn. rewrite <- H.
  destruct (input_iso1 x); [reflexivity|contradiction].
Qed.

(** The result for a recognised language: the code, the ISO 639-2 code or
    the name of the entry, each recognised again as the same language. *)
Lemma convert_recognised lang k fmt :
  input_iso1 lang = Some k ->
  exists r, convertLanguageCode lang fmt = Ret r /\ input_iso1 r = Some k.
Proof.
  intros H. destruct (key_entry k (input_iso1_key _ _ H)) as [a [b [Hg [Hk [Ha Hb]]]]].
  unfold convertLanguageCode. rewrite H, Hg.
  destruct (str_eqb fmt (lit "iso1")); [eauto|].
  destruct (str_eqb fmt (lit "iso2")); [eauto|].
  destruct (str_eqb fmt (lit "name")); eauto.
Qed.

(** [convertLanguageCode] never throws, and converting its result again to
    the same format changes nothing. *)
Theorem convertLanguageCode_idempotent lang targetFormat :
  exists r, convertLanguageCode lang targetFormat = Ret r
         /\ convertLanguageCode r targetFormat = Ret r.
Proof.
  destruct (input_iso1 lang) as [k|] eqn:H.
  - destruct (convert_recognised lang k targetFormat H) as [r [Hr Hk]].
    exists r. split; [exact Hr|].
    rewrite (convert_same_iso1 r lang targetFormat);
      [exact Hr|rewrite Hk, H; reflexivity|rewrite Hk; discriminate].
  - exists lang. unfold convertLanguageCode. rewrite H. split; reflexivity.
Qed.

(** Converting to any format loses nothing: converting the result back to
    ['iso1'] gives what converting the input to ['iso1'] gives. *)
Theorem convertLanguageCode_back_to_iso1 lang targetFormat r :
  convertLanguageCode lang targetFormat = Ret r ->
  convertLanguageCode r (lit "iso1") = convertLanguageCode lang (lit "iso1").
Proof.
  intros Hr. destruct (input_iso1 lang) as [k|] eqn:H.
  - destruct (convert_recognised lang k targetFormat H) as [r' [Hr' Hk]].
    rewrite Hr in Hr'. injection Hr' as <-.
    apply convert_same_iso1; [rewrite Hk, H; reflexivity|rewrite Hk; discriminate].
  - unfold convertLanguageCode in Hr. rewrite H in Hr. injection Hr as <-. reflexivity.
Qed.

Lemma convertLanguageCode_back_to_iso1_witness :
  convertLanguageCode (lit "ell") (lit "iso1") = Ret (lit "el").
Proof.
  assert (H : convertLanguageCode (lit "GREEK") (lit "iso2") = Ret (lit "ell"))
    by (vm_compute; reflexivity).
  rewrite (convertLanguageCode_back_to_iso1 _ _ _ H). vm_compute. reflexivity.
Defined.

Lemma input_iso1_lower lang : input_iso1 (toLowerCase lang) = input_iso1 lang.
Proof.
  assert (Hl : length (toLowerCase lang) = length lang) by apply length_map.
  unfold input_iso1, find_iso1. rewrite Hl, toLowerCase_idem. reflexivity.
Qed.

(** Letter case does not matter: the lower-case spelling of an input gives
    the same result, unless neither spelling is recognised, in which case
    each is returned unchanged. *)
Theorem convertLanguageCode_case_insensitive lang targetFormat :
  convertLanguageCode (toLowerCase lang) targetFormat
  = convertLanguageCode lang targetFormat
  \/ (convertLanguageCode lang targetFormat = Ret lang
      /\ convertLanguageCode (toLowerCase lang) targetFormat = Ret (toLowerCase lang)).
Proof.
  destruct (input_iso1 lang) as [k|] eqn:H.
  - left. apply convert_same_iso1;
      [rewrite input_iso1_lower; reflexivity|rewrite input_iso1_lower, H; discriminate].
  - right. unfold convertLanguageCode. rewrite input_iso1_lower, H. split; reflexivity.
Qed.

(** ** IMDb ids *)

Lemma digit_not_t x : is_digit x = true -> is_t x = false.
Proof.
  intros Hx. unfold is_t.
  destruct (Ascii.eqb_spec x "t"%char) as [->|_]; [cbv in Hx; discriminate Hx|].
  destruct (Ascii.eqb_spec x "T"%char) as [->|_]; [cbv in Hx; discriminate Hx|].
  reflexivity.
Qed.

Lemma t_not_digit x : is_t x = true -> is_digit x = false.
Proof.
  unfold is_t. intros H. apply orb_true_iff in H as [H|H];
    apply Ascii.eqb_eq in H; subst x; reflexivity.
Qed.

Lemma digit_run_app d rest :
  forallb is_digit d = true ->
  match rest with c :: _ => is_digit c = false | [] => True end ->
  digit_run (d ++ rest) = d.
Proof.
  intros Hd Hr. induction d as [|x d IH].
  - destruct rest as [|c r]; [reflexivity|]. simpl. rewrite Hr. reflexivity.
  - simpl in Hd |- *. apply andb_prop in Hd as [Hx Hd]. rewrite Hx, IH by exact Hd.
    reflexivity.
Qed.

Lemma digit_run_digits l : forallb is_digit (digit_run l) = true.
Proof.
  induction l as [|x t IH]; [reflexivity|]. simpl.
  destruct (is_digit x) eqn:Hx; [simpl; rewrite Hx, IH; reflexivity|reflexivity].
Qed.

Lemma digits7_some l d : digits7 l = Some d -> d = digit_run l /\ 7 <= length d.
Proof.
  unfold digits7. destruct (Nat.leb_spec 7 (length (digit_run l))); [|discriminate].
  intros Hs. injection Hs as <-. auto.
Qed.

Lemma parse_tt_digits d :
  forallb is_digit d = true -> 7 <= length d ->
  parseImdbId (lit "tt" ++ d) = Some (lit "tt" ++ d).
Proof.
  intros Hd Hl. unfold parseImdbId, imdb_match, digits7. cbn [tt_rest lit list_ascii_of_string app].
  change (is_t "t"%char && is_t "t"%char) with true. cbv iota.
  assert (Er : digit_run d = d).
  { rewrite <- (app_nil_r d) at 1. apply digit_run_app; [exact Hd|exact I]. }
  rewrite Er. destruct (Nat.leb_spec 7 (length d)); [reflexivity|lia].
Qed.

(** An id made of an optional [tt] (in any case) and a run of digits
    followed by a non-digit or the end is accepted exactly when the run has
    at least seven digits, and is normalised to [tt] and the digits. *)
Theorem parseImdbId_prefix_digits p d rest :
  (p = [] /\ d <> [] \/ exists a b, p = [a; b] /\ is_t a = true /\ is_t b = true) ->
  forallb is_digit d = true ->
  match rest with c :: _ => is_digit c = false | [] => True end ->
  parseImdbId (p ++ d ++ rest)
  = if 7 <=? length d then Some (lit "tt" ++ d) else None.
Proof.
  intros Hp Hd Hr. unfold parseImdbId, imdb_match, digits7.
  destruct Hp as [[-> Hne]|[a [b [-> [Ha Hb]]]]].
  - destruct d as [|x d']; [contradiction|].
    pose proof Hd as Hx. simpl in Hx. apply andb_prop in Hx as [Hx _].
    assert (Et : tt_rest ((x :: d') ++ rest) = None).
    { simpl. destruct (d' ++ rest); [reflexivity|]. rewrite digit_not_t by exact Hx.
      reflexivity. }
    change ([] ++ (x :: d') ++ rest) with ((x :: d') ++ rest).
    rewrite Et, digit_run_app by assumption.
    destruct (7 <=? length (x :: d')); reflexivity.
  - cbn [app tt_rest]. rewrite Ha, Hb. cbn [andb].
    rewrite digit_run_app by assumption.
    destruct (7 <=? length d); [reflexivity|].
    simpl digit_run. rewrite t_not_digit by exact Ha. reflexivity.
Qed.

Lemma parseImdbId_prefix_digits_witness :
  parseImdbId (lit "Tt" ++ lit "0111161" ++ lit "/x") = Some (lit "tt0111161")
  /\ parseImdbId ([] ++ lit "123456" ++ lit "x") = None.
Proof.
  split.
  - rewrite (parseImdbId_prefix_digits (lit "Tt") (lit "0111161") (lit "/x"));
      [reflexivity| |reflexivity|reflexivity].
    right. exists "T"%char, "t"%char. split; [reflexivity|split; reflexivity].
  - rewrite (parseImdbId_prefix_digits [] (lit "123456") (lit "x"));
      [reflexivity| |reflexivity|reflexivity].
    left. split; [reflexivity|discriminate].
Defined.

(** Every id [parseImdbId] returns is [tt] followed by seven or more digits,
    and is returned unchanged when parsed again. *)
Theorem parseImdbId_normal_form id r :
  parseImdbId id = Some r ->
  exists d, r = lit "tt" ++ d /\ forallb is_digit d = true /\ 7 <= length d
         /\ parseImdbId r = Some r.
Proof.
  unfold parseImdbId at 1. destruct (imdb_match id) as [d|] eqn:E; [|discriminate].
  intros Hr. injection Hr as <-.
  assert (Hd : forallb is_digit d = true /\ 7 <= length d).
  { unfold imdb_match in E. destruct (tt_rest id) as [rest|].
    - destruct (digits7 rest) as [d'|] eqn:E7.
      + injection E as <-. apply digits7_some in E7 as [-> Hl].
        split; [apply digit_run_digits|exact Hl].
      + apply digits7_some in E as [-> Hl]. split; [apply digit_run_digits|exact Hl].
    - apply digits7_some in E as [-> Hl]. split; [apply digit_run_digits|exact Hl]. }
  destruct Hd as [Hd Hl]. exists d. repeat split; try assumption.
  apply parse_tt_digits; assumption.
Qed.

Lemma parseImdbId_normal_form_witness :
  parseImdbId (lit "tt0111161") = Some (lit "tt0111161").
Proof.
  assert (H : parseImdbId (lit "0111161abc") = Some (lit "tt0111161")) by reflexivity.
  destruct (parseImdbId_normal_form _ _ H) as [d [_ [_ [_ Hr]]]]. exact Hr.
Defined.

(** ** Retrying with exponential backoff *)

Lemma retry_loop_run {A E} (op : nat -> A + E) b left : forall r,
  exists n, r <= n <= r + left
    /\ (forall i, r <= i < n -> exists e, op i = inr e)
    /\ (n = r + left \/ exists a, op n = inl a)
    /\ retry_loop op b r left
       = (op n, concat (map (fun i => [Call; Wait (b * 2 ^ Z.of_nat i)%Z])
                          (seq r (n - r))) ++ [Call]).
Proof.
  induction left as [|left IH]; intros r.
  - exists r. split; [lia|]. split; [intros i Hi; lia|]. split; [left; lia|].
    simpl. rewrite Nat.sub_diag. destruct (op r); reflexivity.
  - destruct (op r) as [a|e] eqn:Er.
    + exists r. split; [lia|]. split; [intros i Hi; lia|]. split; [right; exists a; exact Er|].
      simpl. rewrite Er, Nat.sub_diag. reflexivity.
    + destruct (IH (S r)) as [n [Hn [Hf [Hl Hrun]]]].
      exists n. split; [lia|]. split.
      { intros i Hi. destruct (Nat.eq_dec i r) as [->|Hne]; [exists e; exact Er|].
        apply Hf; lia. }
      split; [destruct Hl as [Hl|Hl]; [left; lia|right; exact Hl]|].
      simpl. rewrite Er, Hrun.
      replace (n - r) with (S (n - S r)) by lia. reflexivity.
Qed.

(** For every operation, [retryWithExponentialBackoff] calls it [n + 1]
    times for some [n <= maxRetries]: the first [n] calls fail, and the
    last one either succeeds or is call number [maxRetries + 1]. After the
    [i]-th failed call (from 0) it waits [baseDelay * 2^i] ms, and it
    returns the last call's value or rethrows its error. *)
Theorem retryWithExponentialBackoff_run {A E} (operation : nat -> A + E) baseDelay
    maxRetries :
  exists n, n <= maxRetries
    /\ (forall i, i < n -> exists e, operation i = inr e)
    /\ (n = maxRetries \/ exists a, operation n = inl a)
    /\ retryWithExponentialBackoff operation baseDelay maxRetries
       = (operation n,
          concat (map (fun i => [Call; Wait (baseDelay * 2 ^ Z.of_nat i)%Z]) (seq 0 n))
          ++ [Call]).
Proof.
  destruct (retry_loop_run operation baseDelay maxRetries 0) as [n [Hn [Hf [Hl Hrun]]]].
  exists n. split; [lia|]. split; [intros i Hi; apply Hf; lia|].
  split; [exact Hl|]. unfold retryWithExponentialBackoff. rewrite Hrun, Nat.sub_0_r.
  reflexivity.
Qed.

(** ** The subtitle router *)

Lemma prefixb_inv p l : prefixb p l = true -> exists r, l = p ++ r.
Proof.
  revert l; induction p as [|a p IH]; intros l H; [exists l; reflexivity|].
  destruct l as [|b l]; [discriminate|]. simpl in H. apply andb_prop in H as [Hab H].
  apply Ascii.eqb_eq in Hab as <-. destruct (IH l H) as [r ->]. exists r. reflexivity.
Qed.

Lemma split_translate r :
  split_on "_"%char (lit "translate_" ++ r) = lit "translate" :: split_on "_"%char r.
Proof.
  change (lit "translate_" ++ r) with (lit "translate" ++ "_"%char :: r).
  rewrite split_on_app. reflexivity.
Qed.

(** A [translate_...] id never takes the [400] branch: splitting it on [_]
    always gives at least two parts. *)
Theorem subtitle_route_never_bad_request subtitleId :
  subtitle_route_action subtitleId <> BadRequestFormat.
Proof.
  unfold subtitle_route_action.
  destruct (prefixb (lit "translate_") subtitleId) eqn:Hp; [|discriminate].
  destruct (prefixb_inv _ _ Hp) as [r ->]. rewrite split_translate.
  destruct (split_on "_"%char r) as [|w ws] eqn:E;
    [exfalso; exact (split_on_nonempty _ _ E)|].
  discriminate.
Qed.

Lemma languageMap_keys_short :
  forallb (fun kv => length (fst kv) =? 2) languageMap = true.
Proof. vm_compute. reflexivity. Qed.

Lemma getLanguageName_long l : length l <> 2 -> getLanguageName l = l.
Proof.
  intros Hl. unfold getLanguageName.
  destruct (find (fun kv => str_eqb (fst kv) l) languageMap) as [[k v]|] eqn:Ef;
    [|reflexivity].
  apply find_some in Ef as [Hin Heq]. apply str_eqb_true in Heq. simpl in Heq. subst k.
  pose proof languageMap_keys_short as H. rewrite forallb_forall in H.
  specialize (H _ Hin). apply Nat.eqb_eq in H. contradiction.
Qed.

(** The id [translate_<L>.vtt] of the add-on's universal translation URL
    (with no [_] in [L]) is taken as a translation request for the target
    language [<L>.vtt], extension included; [getLanguageName] does not
    know that code and the prompt names the language [<L>.vtt]. *)
Theorem subtitle_route_universal_lang L :
  ~ In "_"%char L ->
  subtitle_route_action (lit "translate_" ++ L ++ lit ".vtt")
  = TranslateRequest (L ++ lit ".vtt")
  /\ getLanguageName (L ++ lit ".vtt") = L ++ lit ".vtt".
Proof.
  intros HL. split.
  - unfold subtitle_route_action. rewrite prefixb_app, split_translate.
    rewrite split_on_no_sep.
    + reflexivity.
    + rewrite in_app_iff. intros [H|H]; [exact (HL H)|].
      simpl in H. repeat (destruct H as [H|H]; [discriminate H|]). exact H.
  - apply getLanguageName_long. rewrite length_app. simpl. lia.
Qed.

Lemma subtitle_route_universal_lang_witness :
  subtitle_route_action (lit "translate_" ++ lit "el" ++ lit ".vtt")
  = TranslateRequest (lit "el.vtt")
  /\ getLanguageName (lit "el" ++ lit ".vtt") = lit "el.vtt".
Proof.
  assert (H : ~ In "_"%char (lit "el")).
  { simpl. intros [H|[H|H]]; [discriminate H|discriminate H|exact H]. }
  exact (subtitle_route_universal_lang (lit "el") H).
Defined.

(** ** Batching and reassembly *)

(** [for (let i = 0; i < cues.length; i += 10)] makes [ceil(n / 10)]
    batches of one to ten cues which, concatenated, give the cues back. *)
Theorem make_batches_shape cues :
  concat (make_batches cues) = cues
  /\ length (make_batches cues) = (length cues + 9) / 10
  /\ Forall (fun b => 0 < length b <= 10) (make_batches cues).
Proof.
  split; [apply concat_make_batches|]. split.
  - unfold make_batches. rewrite length_map, length_seq. unfold batchSize.
    replace (length cues + 10 - 1) with (length cues + 9) by lia. reflexivity.
  - unfold make_batches. apply Forall_forall. intros b Hb.
    apply in_map_iff in Hb as [k [<- Hk]]. apply in_seq in Hk.
    unfold batchSize in *.
    pose proof (Nat.div_mod_eq (length cues + 10 - 1) 10) as Hd.
    pose proof (Nat.mod_upper_bound (length cues + 10 - 1) 10) as Hm.
    rewrite length_firstn, length_skipn. lia.
Qed.

Lemma reconcile_length texts t : length (reconcile texts t) = length texts.
Proof.
  unfold reconcile.
  destruct (Nat.eqb_spec (length (split_str seg_sep t)) (length texts)) as [E|E];
    simpl; [exact E|].
  destruct (Nat.leb_spec (length texts) (length (simple_split t))); [|reflexivity].
  rewrite length_firstn. lia.
Qed.

(** Whenever the model answers a batch with some text, the batch callback
    resolves to exactly as many translations as the batch has cues. *)
Theorem handle_response_length textsToTranslate r translatedText :
  response_text r = Ret translatedText ->
  exists ts, handle_response textsToTranslate r = Ret ts
          /\ length ts = length textsToTranslate.
Proof.
  intros H. unfold handle_response. rewrite H.
  eexists; split; [reflexivity|apply reconcile_length].
Qed.

Lemma handle_response_length_witness :
  handle_response [lit "a"; lit "b"] (gemini_reply (lit "x"))
  = Ret [lit "a"; lit "b"].
Proof.
  assert (H : response_text (gemini_reply (lit "x")) = Ret (lit "x")) by reflexivity.
  destruct (handle_response_length [lit "a"; lit "b"] _ _ H) as [ts [Hts Hl]].
  rewrite Hts. vm_compute in Hts. injection Hts as <-. reflexivity.
Defined.

Lemma apply_translations_app b rest ts ts' :
  length ts = length b ->
  apply_translations (b ++ rest) (ts ++ ts')
  = apply_translations b ts ++ apply_translations rest ts'.
Proof.
  revert ts; induction b as [|c b IH]; intros ts Hl.
  - destruct ts; [reflexivity|discriminate].
  - destruct ts as [|x ts]; [discriminate|]. simpl in Hl |- *.
    rewrite IH by lia. reflexivity.
Qed.

Lemma run_batches_ok g s t bs : forall k,
  (forall i b, nth_error bs i = Some b ->
     exists tt, response_text (g (k + i) (make_prompt s t (map text b))) = Ret tt) ->
  exists tbs bs',
    promise_all (run_batches g s t k bs) = Ret tbs
    /\ apply_translations (concat bs) (concat tbs) = concat bs'
    /\ length bs' = length bs
    /\ forall i b tt, nth_error bs i = Some b ->
         response_text (g (k + i) (make_prompt s t (map text b))) = Ret tt ->
         nth_error bs' i = Some (apply_translations b (reconcile (map text b) tt)).
Proof.
  induction bs as [|b bs IH]; intros k H.
  - exists [], []. split; [reflexivity|]. split; [reflexivity|]. split; [reflexivity|].
    intros i b' tt Hi. destruct i; discriminate.
  - destruct (H 0 b eq_refl) as [tt0 Ht0]. rewrite Nat.add_0_r in Ht0.
    destruct (IH (S k)) as [tbs [bs' [Hp [Ha [Hl Hn]]]]].
    { intros i b' Hi. replace (S k + i) with (k + S i) by lia. apply (H (S i) b' Hi). }
    exists (reconcile (map text b) tt0 :: tbs),
           (apply_translations b (reconcile (map text b) tt0) :: bs').
    split.
    { cbn [run_batches promise_all]. unfold handle_response at 1. rewrite Ht0, Hp.
      reflexivity. }
    split.
    { cbn [concat]. rewrite apply_translations_app, Ha; [reflexivity|].
      rewrite reconcile_length, length_map. reflexivity. }
    split; [simpl; rewrite Hl; reflexivity|].
    intros i b' tt Hi Ht. destruct i as [|i].
    + injection Hi as <-. rewrite Nat.add_0_r, Ht0 in Ht. injection Ht as <-.
      reflexivity.
    + apply (Hn i b' tt Hi). replace (S k + i) with (k + S i) by lia. exact Ht.
Qed.

(** When no model call fails hard, the result (on a cache miss, for
    content with cues) is the VTT encoding of the batches put back
    together, each batch with its own answer's translations applied to its
    own cues, and it is cached. *)
Theorem translateSubtitle_batch_local P md5 g content s t st :
  cache_hit (cacheKey md5 content s t) st = None ->
  parseSubtitleContent P content (detect_format content) <> [] ->
  (forall i b,
     nth_error (make_batches (parseSubtitleContent P content (detect_format content))) i
       = Some b ->
     exists tt, response_text (g (calls st + i) (make_prompt s t (map text b))) = Ret tt) ->
  exists bs',
    translateSubtitle P md5 g content s t st
    = (Ret (convertCuesToVTT (concat bs')),
       cache_set (cacheKey md5 content s t) (convertCuesToVTT (concat bs'))
         (mk_st (cache st) (now st)
            (calls st + length (make_batches
                                  (parseSubtitleContent P content (detect_format content))))))
    /\ length bs' = length (make_batches
                              (parseSubtitleContent P content (detect_format content)))
    /\ forall i b tt,
         nth_error (make_batches (parseSubtitleContent P content (detect_format content))) i
           = Some b ->
         response_text (g (calls st + i) (make_prompt s t (map text b))) = Ret tt ->
         nth_error bs' i = Some (apply_translations b (reconcile (map text b) tt)).
Proof.
  intros Hm Hne Hok.
  destruct (run_batches_ok g s t _ (calls st) Hok) as [tbs [bs' [Hp [Ha [Hl Hn]]]]].
  rewrite concat_make_batches in Ha.
  exists bs'. split; [|split; [exact Hl|exact Hn]].
  rewrite translateSubtitle_miss by exact Hm.
  destruct (translate_body P g content s t (cacheKey md5 content s t) st)
    as [r st'] eqn:Eb.
  apply translate_body_cases in Eb. cbv zeta in Eb.
  destruct Eb as [[Hc _]|[[_ [[e He] _]]|[_ [tbs' [Htbs [-> ->]]]]]].
  - contradiction.
  - rewrite Hp in He. discriminate.
  - rewrite Hp in Htbs. injection Htbs as <-. rewrite Ha. reflexivity.
Qed.

Lemma translateSubtitle_batch_local_witness :
  exists bs',
    fst (translateSubtitle no_srt identity_hash greek_model spec_example
           (lit "en") (lit "el") empty_state)
    = Ret (convertCuesToVTT (concat bs'))
    /\ nth_error bs' 0 = Some [geia_cue].
Proof.
  assert (H1 : cache_hit (cacheKey identity_hash spec_example (lit "en") (lit "el"))
                 empty_state = None) by reflexivity.
  assert (H2 : parseSubtitleContent no_srt spec_example (detect_format spec_example) <> [])
    by (vm_compute; discriminate).
  assert (H3 : forall i b,
     nth_error (make_batches (parseSubtitleContent no_srt spec_example
                                (detect_format spec_example))) i = Some b ->
     exists tt, response_text (greek_model (calls empty_state + i)
                  (make_prompt (lit "en") (lit "el") (map text b))) = Ret tt)
    by (intros; exists (lit "Geia"); reflexivity).
  destruct (translateSubtitle_batch_local no_srt identity_hash greek_model spec_example
              (lit "en") (lit "el") empty_state H1 H2 H3) as [bs' [E [_ Hn]]].
  exists bs'. rewrite E. split; [reflexivity|].
  rewrite (Hn 0 [hello_cue] (lit "Geia") ltac:(vm_compute; reflexivity) eq_refl).
  vm_compute. reflexivity.
Defined.

(** ** What the VTT parser produces *)

Lemma drop_ws_suffix l : exists w, l = w ++ drop_ws l.
Proof.
  induction l as [|x t [w IH]]; [exists []; reflexivity|].
  cbn [drop_ws]. destruct (is_ws x); [exists (x :: w); rewrite IH at 1; reflexivity|].
  exists []; reflexivity.
Qed.

Lemma drop_ws_length l : length (drop_ws l) <= length l.
Proof.
  destruct (drop_ws_suffix l) as [w Hw]. rewrite Hw at 2. rewrite length_app. lia.
Qed.

Lemma drop_ws_idem l : drop_ws (drop_ws l) = drop_ws l.
Proof.
  induction l as [|x t IH]; [reflexivity|]. cbn [drop_ws].
  destruct (is_ws x) eqn:E; [exact IH|]. cbn [drop_ws]. rewrite E. reflexivity.
Qed.

Lemma drop_ws_fixed_head x t : drop_ws (x :: t) = x :: t -> is_ws x = false.
Proof.
  cbn [drop_ws]. destruct (is_ws x); [|reflexivity]. intros H.
  pose proof (drop_ws_length t) as Hl. rewrite H in Hl. simpl in Hl. lia.
Qed.

Lemma trim_idem l : trim (trim l) = trim l.
Proof.
  apply trim_fixed.
  - unfold trim. set (u := drop_ws l).
    destruct (drop_ws_suffix (rev u)) as [w Hw].
    assert (Hu : u = rev (drop_ws (rev u)) ++ rev w).
    { rewrite <- rev_app_distr, <- Hw, rev_involutive. reflexivity. }
    destruct (rev (drop_ws (rev u))) as [|x t] eqn:E; [reflexivity|].
    apply drop_ws_cons, (drop_ws_fixed_head x (t ++ rev w)).
    cbn [app] in Hu. rewrite <- Hu. apply drop_ws_idem.
  - unfold trim. rewrite rev_involutive, drop_ws_idem. reflexivity.
Qed.

Lemma in_trim x l : In x (trim l) -> In x l.
Proof.
  unfold trim. intros H. apply in_rev in H.
  destruct (drop_ws_suffix (rev (drop_ws l))) as [w Hw].
  assert (H1 : In x (rev (drop_ws l))) by (rewrite Hw; apply in_or_app; right; exact H).
  apply in_rev in H1.
  destruct (drop_ws_suffix l) as [w' Hw']. rewrite Hw'. apply in_or_app; right; exact H1.
Qed.

Lemma split_on_pieces c l w : In w (split_on c l) -> ~ In c w.
Proof.
  revert w; induction l as [|x t IH]; intros w Hw; simpl in Hw.
  - destruct Hw as [<-|[]]. intros [].
  - destruct (Ascii.eqb_spec x c) as [->|Hx].
    + destruct Hw as [<-|Hw]; [intros []|exact (IH w Hw)].
    + destruct (split_on c t) as [|v vs] eqn:E;
        [exfalso; exact (split_on_nonempty c t E)|].
      destruct Hw as [<-|Hw].
      * intros [Hc|Hc]; [exact (Hx Hc)|exact (IH v (or_introl eq_refl) Hc)].
      * exact (IH w (or_intror Hw)).
Qed.

Lemma match_pat_matched p l m r : match_pat p l = Some (m, r) -> full_match p m = true.
Proof.
  unfold full_match. intros H. enough (E : match_pat p m = Some (m, [])) by (rewrite E; reflexivity).
  revert l m r H; induction p as [|k p IH]; intros l m r H; simpl in H |- *.
  - injection H as <- <-. reflexivity.
  - destruct l as [|y t]; [discriminate|].
    destruct (cls_ok k y) eqn:Hk; [|discriminate].
    destruct (match_pat p t) as [[m' r']|] eqn:E; [|discriminate].
    injection H as <- <-. rewrite Hk, (IH _ _ _ E). reflexivity.
Qed.

Lemma timing_alt_valid a1 a2 l g1 g2 :
  (a1 = ts_long \/ a1 = ts_short) -> (a2 = ts_long \/ a2 = ts_short) ->
  timing_alt a1 a2 l = Some (g1, g2) -> valid_ts g1 = true /\ valid_ts g2 = true.
Proof.
  unfold timing_alt, valid_ts. intros H1 H2 H.
  destruct (match_pat a1 l) as [[m r]|] eqn:E1; [|discriminate].
  destruct (match_pat (map Chr arrow) r) as [[m' r']|]; [|discriminate].
  destruct (match_pat a2 r') as [[m2 r2]|] eqn:E2; [|discriminate].
  injection H as <- <-.
  apply match_pat_matched in E1, E2.
  destruct H1 as [->| ->], H2 as [->| ->]; rewrite ?E1, ?E2, ?orb_true_r; auto.
Qed.

Lemma timing_match_valid l g1 g2 :
  timing_match l = Some (g1, g2) -> valid_ts g1 = true /\ valid_ts g2 = true.
Proof.
  induction l as [|x t IH]; intros H; [discriminate|].
  simpl in H. destruct (timing_at (x :: t)) as [g|] eqn:E; [|exact (IH H)].
  injection H as ->. unfold timing_at in E.
  destruct (timing_alt ts_long ts_long _) eqn:E1;
    [injection E as ->; eapply timing_alt_valid; [left|left|]; eauto|].
  destruct (timing_alt ts_long ts_short _) eqn:E2;
    [injection E as ->; eapply timing_alt_valid; [left|right|]; eauto|].
  destruct (timing_alt ts_short ts_long _) eqn:E3;
    [injection E as ->; eapply timing_alt_valid; [right|left|]; eauto|].
  eapply timing_alt_valid; [right|right|]; eauto.
Qed.

Lemma append_text_decodable c line :
  (text c = [] \/ forallb valid_text_line (split_on nl (text c)) = true) ->
  valid_text_line line = true -> ~ In nl line ->
  forallb valid_text_line (split_on nl (text (append_text c line))) = true.
Proof.
  intros Hc Hl Hn. unfold append_text; cbn [text].
  destruct (text c) as [|x t] eqn:E.
  - cbn [is_emptyb app]. rewrite split_on_no_sep by exact Hn. simpl. rewrite Hl. reflexivity.
  - destruct Hc as [Hc|Hc]; [discriminate|].
    cbn [is_emptyb app]. pose proof (split_on_app nl (x :: t) line) as Es.
    cbn [app] in Es. rewrite Es, forallb_app, Hc, split_on_no_sep by exact Hn.
    simpl. rewrite Hl. reflexivity.
Qed.

Lemma vtt_loop_decodable lines : forall acc cur sk,
  (forall w, In w lines -> ~ In nl w) ->
  Forall (fun c => valid_ts (start c) = true /\ valid_ts (end_ c) = true
                   /\ (text c = [] \/ forallb valid_text_line (split_on nl (text c)) = true))
    (push_opt acc cur) ->
  let '(a, c) := vtt_loop lines acc cur sk in
  Forall (fun c => valid_ts (start c) = true /\ valid_ts (end_ c) = true
                   /\ (text c = [] \/ forallb valid_text_line (split_on nl (text c)) = true))
    (push_opt a c).
Proof.
  induction lines as [|raw rest IH]; intros acc cur sk Hl H; [exact H|].
  assert (Hl' : forall w, In w rest -> ~ In nl w) by (intros w Hw; apply Hl; right; exact Hw).
  assert (Hraw : ~ In nl (trim raw)) by (intros Hin; exact (Hl raw (or_introl eq_refl) (in_trim _ _ Hin))).
  cbn [vtt_loop]. destruct sk; [apply IH; assumption|].
  destruct (is_emptyb (trim raw) || str_eqb (trim raw) (lit "WEBVTT")) eqn:E1;
    [apply IH; assumption|].
  destruct (prefixb (lit "NOTE") (trim raw)) eqn:E2; [apply IH; assumption|].
  destruct (timing_match (trim raw)) as [[g1 g2]|] eqn:E3.
  - apply IH; [assumption|]. cbn [push_opt]. apply Forall_app; split; [exact H|].
    destruct (timing_match_valid _ _ _ E3) as [V1 V2].
    constructor; [|constructor]. cbn [start end_ text]. auto.
  - destruct cur as [c|]; [|apply IH; assumption].
    destruct (all_digits (trim raw)) eqn:E4; [apply IH; assumption|].
    apply IH; [assumption|]. cbn [push_opt] in H |- *.
    apply Forall_app in H as [Ha Hc]. inversion Hc as [|? ? [Hs [He Ht]] _]; subst.
    apply Forall_app; split; [exact Ha|]. constructor; [|constructor].
    split; [exact Hs|]. split; [exact He|]. right.
    apply append_text_decodable; [exact Ht| |exact Hraw].
    apply orb_false_iff in E1 as [E1 E1'].
    unfold valid_text_line. rewrite E1, trim_idem, str_eqb_refl, E4, E1', E2, E3.
    reflexivity.
Qed.

Lemma vtt_cues_decodable P content :
  Forall (fun c => valid_ts (start c) = true /\ valid_ts (end_ c) = true
                   /\ (text c = [] \/ forallb valid_text_line (split_on nl (text c)) = true))
    (parseSubtitleContent P content Vtt).
Proof.
  unfold parseSubtitleContent.
  pose proof (vtt_loop_decodable (split_on nl content) [] None false
                (split_on_pieces nl content) (Forall_nil _)) as H.
  destruct (vtt_loop _ _ _ _) as [a c]. exact H.
Qed.

(** Every cue the VTT parser returns has a start and an end of one of the
    two shapes of the timing regex ([HH:MM:SS.mmm] or [MM:SS.mmm]), and a
    text that is either empty or made of lines that are non-empty, trimmed,
    not a number, not [WEBVTT], not the start of a [NOTE] block and free of
    timing lines. *)
Theorem parseSubtitleContent_vtt_cues P content :
  Forall (fun c => valid_ts (start c) = true /\ valid_ts (end_ c) = true
                   /\ (text c = [] \/ forallb valid_text_line (split_on nl (text c)) = true))
    (parseSubtitleContent P content Vtt).
Proof. exact (vtt_cues_decodable P content). Qed.

Lemma split_cue_block_ts i c r :
  valid_ts (start c) = true -> valid_ts (end_ c) = true ->
  split_on nl (cue_block i c ++ r)
  = nat_str (i + 1) :: (start c ++ arrow ++ end_ c)
    :: split_on nl (text c) ++ [] :: split_on nl r.
Proof.
  intros Hs He.
  assert (Eb : cue_block i c ++ r
    = nat_str (i + 1) ++ nl :: ((start c ++ arrow ++ end_ c)
        ++ nl :: (text c ++ nl :: ([] ++ nl :: r)))).
  { unfold cue_block. rewrite <- !app_assoc. reflexivity. }
  rewrite Eb, !split_on_app.
  rewrite (split_on_no_sep _ (nat_str (i + 1))).
  2:{ apply digits_not_in; [apply all_digits_forallb, nat_str_all_digits|reflexivity]. }
  rewrite (split_on_no_sep _ (start c ++ arrow ++ end_ c)).
  2:{ rewrite !in_app_iff. intros [Hin|[Hin|Hin]].
      - exact (nl_not_in_ts _ Hs Hin).
      - simpl in Hin. repeat (destruct Hin as [Hx|Hin]; [discriminate Hx|]); exact Hin.
      - exact (nl_not_in_ts _ He Hin). }
  reflexivity.
Qed.

Lemma loop_body_decodable cues : forall i acc cur,
  Forall (fun c => valid_ts (start c) = true /\ valid_ts (end_ c) = true
                   /\ (text c = [] \/ forallb valid_text_line (split_on nl (text c)) = true))
    cues ->
  let '(a, c) := vtt_loop (split_on nl (vtt_body i cues)) acc cur false in
  push_opt a c = push_opt acc cur ++ cues.
Proof.
  induction cues as [|c cs IH]; intros i acc cur Hv.
  - simpl. rewrite app_nil_r. reflexivity.
  - inversion Hv as [|? ? [Hs [He Ht]] Hv']; subst.
    cbn [vtt_body]. rewrite split_cue_block_ts by assumption.
    rewrite loop_index, loop_timing by assumption.
    assert (Ec : vtt_loop (split_on nl (text c) ++ [] :: split_on nl (vtt_body (S i) cs))
                   (push_opt acc cur) (Some (with_text c [])) false
                 = vtt_loop (split_on nl (vtt_body (S i) cs)) (push_opt acc cur) (Some c) false).
    { destruct Ht as [Ht|Ht].
      - rewrite Ht. cbn [split_on app]. rewrite !loop_blank.
        destruct c; cbn in Ht; subst; reflexivity.
      - rewrite loop_cue_text by exact Ht. apply loop_blank. }
    rewrite Ec.
    specialize (IH (S i) (push_opt acc cur) (Some c) Hv').
    destruct (vtt_loop _ _ _ _) as [a c'].
    rewrite IH. simpl. rewrite <- app_assoc. reflexivity.
Qed.

(** Parsing a VTT document, writing the cues back with [convertCuesToVTT]
    and parsing the result again gives the same cues: after one pass the
    VTT codec is stable, whatever the original document was. *)
Theorem vtt_reparse_stable P content :
  parseSubtitleContent P (convertCuesToVTT (parseSubtitleContent P content Vtt)) Vtt
  = parseSubtitleContent P content Vtt.
Proof.
  pose proof (vtt_cues_decodable P content) as Hv.
  set (cues := parseSubtitleContent P content Vtt) in *.
  unfold parseSubtitleContent at 1.
  rewrite split_convertCuesToVTT, loop_header, loop_blank.
  pose proof (loop_body_decodable cues 0 [] None Hv) as Hb.
  destruct (vtt_loop _ _ _ _) as [a c]. exact Hb.
Qed.

(** ** SRT timestamps *)

Lemma srt_ts_search_comma l m : srt_ts_search l = Some m -> In ","%char l.
Proof.
  induction l as [|x t IH]; intros H.
  - discriminate H.
  - cbn [srt_ts_search] in H.
    destruct (match_pat srt_ts_pat (x :: t)) as [[m' r]|] eqn:E.
    + apply (match_pat_chr _ _ _ _ _ E). unfold srt_ts_pat, chrs, lit; simpl; tauto.
    + right. exact (IH H).
Qed.

(** A timestamp without a comma, such as the VTT form [00:00:01.000],
    does not match the SRT regex and is read as [0] seconds. *)
Theorem parseSrtTimestamp_no_comma timestamp :
  ~ In ","%char timestamp -> parseSrtTimestamp timestamp = S754_zero false.
Proof.
  intros H. unfold parseSrtTimestamp.
  destruct (srt_ts_search timestamp) as [m|] eqn:E; [|reflexivity].
  exfalso. exact (H (srt_ts_search_comma _ _ E)).
Qed.

Lemma parseSrtTimestamp_no_comma_witness :
  parseSrtTimestamp (lit "00:00:01.000") = S754_zero false.
Proof.
  apply parseSrtTimestamp_no_comma. vm_compute. intros H.
  repeat (destruct H as [H|H]; [discriminate H|]). exact H.
Defined.

(** ** The Stremio subtitles handler *)

Lemma filter_js_throw p l x e :
  In x l -> p x = Throw e -> exists e', filter_js p l = Throw e'.
Proof.
  induction l as [|y t IH]; intros Hin Hp; [destruct Hin|].
  cbn [filter_js]. destruct Hin as [->|Hin].
  - rewrite Hp. eexists; reflexivity.
  - destruct (p y) as [b|e']; [|eexists; reflexivity].
    destruct (IH Hin Hp) as [e' He']. rewrite He'. eexists; reflexivity.
Qed.



(** Steps 2 and 3 keep [found] and the universal option in front. *)
Lemma handler_try_prefix found mediaId userLang localIp port baseUrl out :
  handler_try (Ret found) mediaId userLang localIp port baseUrl = Ret out ->
  exists rest,
    out = map (fun sub => match greek_pred sub with
                          | Ret true => mk_subtitle (sid sub) (surl sub) (slang sub)
                                          (num_of_Z 11)
                          | _ => sub
                          end)
            (found ++ translation_option mediaId userLang localIp port :: rest).
Proof.
  unfold handler_try. cbv zeta.
  set (subtitles := found ++ [translation_option mediaId userLang localIp port]).
  intros H.
  assert (Hs : exists rest st, (if 1 <? length subtitles then
      match filter_js (fun sub => if str_eqb (slang sub) (lit "en")
                                  then not_translated sub else Ret false) subtitles with
      | Throw e => Throw e
      | Ret englishSubs =>
      match filter_js (fun sub => if negb (str_eqb (slang sub) (lit "en"))
                                     && negb (str_eqb (slang sub) userLang)
                                  then not_translated sub else Ret false) subtitles with
      | Throw e => Throw e
      | Ret otherSubs =>
      Ret (subtitles ++ map (fun p => specific_option baseUrl mediaId userLang (fst p) (snd p))
             (combine (seq 0 (Nat.min (length (if 0 <? length englishSubs
                                                then englishSubs else otherSubs)) 3))
                (if 0 <? length englishSubs then englishSubs else otherSubs)))
      end end
    else Ret subtitles) = Ret st /\ st = found ++ translation_option mediaId userLang localIp port :: rest).
  { destruct (1 <? length subtitles).
    - destruct (filter_js _ subtitles) as [en|e]; [|discriminate H].
      destruct (filter_js _ subtitles) as [ot|e]; [|discriminate H].
      eexists; eexists; split; [reflexivity|].
      unfold subtitles. rewrite <- app_assoc. reflexivity.
    - exists [], subtitles. split; reflexivity. }
  destruct Hs as [rest [st [Hst ->]]]. rewrite Hst in H.
  destruct (filter_js greek_pred _) as [g|e]; [|discriminate H].
  injection H as <-. exists rest. reflexivity.
Qed.

(** Whatever [findSubtitles] returns or throws, the handler always offers
    the universal AI option: id [translate_<mediaId>_<userLang>], the URL
    [http://<ip>:<port>/subtitles/any/translate_<userLang>.vtt] and the
    user's language. *)
Theorem subtitles_handler_offers_universal tl lg found mediaId localIp port baseUrl :
  exists sub,
    In sub (subtitles_handler tl lg found mediaId localIp port baseUrl)
    /\ sid sub = IdStr (lit "translate_" ++ mediaId ++ lit "_" ++ userLang_of tl lg)
    /\ surl sub = universal_url localIp port (userLang_of tl lg)
    /\ slang sub = userLang_of tl lg.
Proof.
  unfold subtitles_handler. cbv zeta.
  destruct (handler_try found mediaId (userLang_of tl lg) localIp port baseUrl)
    as [out|e] eqn:E.
  - destruct found as [l|e]; [|discriminate E].
    destruct (handler_try_prefix _ _ _ _ _ _ _ E) as [rest ->].
    set (o := translation_option mediaId (userLang_of tl lg) localIp port).
    eexists. split.
    + apply in_map. apply in_or_app. right. left. reflexivity.
    + destruct (greek_pred o) as [[|]|]; repeat split; reflexivity.
  - eexists. split; [left; reflexivity|]. repeat split; reflexivity.
Qed.





(** A found subtitle in English whose id is a number (not a string) makes
    [sub.id.includes] throw in step 3: the handler then drops every
    subtitle found and returns the fallback option alone. *)
Theorem subtitles_handler_numeric_english_id tl lg found mediaId localIp port baseUrl s n :
  In s found -> slang s = lit "en" -> sid s = IdNum n ->
  subtitles_handler tl lg (Ret found) mediaId localIp port baseUrl
  = [translation_option mediaId (userLang_of tl lg) localIp port].
Proof.
  intros Hin Hl Hn. unfold subtitles_handler, handler_try. cbv zeta.
  assert (Hlen : (1 <? length (found ++ [translation_option mediaId (userLang_of tl lg)
                                          localIp port])) = true).
  { apply Nat.ltb_lt. rewrite length_app. destruct found; [destruct Hin|]. simpl. lia. }
  rewrite Hlen.
  destruct (filter_js_throw (fun sub => if str_eqb (slang sub) (lit "en")
                                       then not_translated sub else Ret false)
              (found ++ [translation_option mediaId (userLang_of tl lg) localIp port])
              s TypeError) as [e He].
  - apply in_or_app. left. exact Hin.
  - rewrite Hl, str_eqb_refl. unfold not_translated, id_includes. rewrite Hn. reflexivity.
  - rewrite He. reflexivity.
Qed.

Lemma subtitles_handler_numeric_english_id_witness :
  subtitles_handler None (Some (lit "el"))
    (Ret [mk_subtitle (IdStr (lit "el-1")) (lit "u") (lit "el") (num_of_Z 5);
          mk_subtitle (IdNum 1954282) (lit "https://api.opensubtitles.com/api/v1/download")
            (lit "en") (num_of_Z 0)])
    (lit "tt0111161") (lit "10.0.0.2") (lit "7000") (lit "http://localhost:7000")
  = [translation_option (lit "tt0111161") (lit "el") (lit "10.0.0.2") (lit "7000")].
Proof.
  apply (subtitles_handler_numeric_english_id None (Some (lit "el")) _ _ _ _ _
           (mk_subtitle (IdNum 1954282) (lit "https://api.opensubtitles.com/api/v1/download")
              (lit "en") (num_of_Z 0)) 1954282).
  - right. left. reflexivity.
  - reflexivity.
  - reflexivity.
Defined.
